(** * Dendron: SQLite database factory and lookup auto-completion

    A shallow embedding of
    [packages/engine-server/src/drivers/sqlite/SqliteDbFactory.ts]
    (class [SqliteDbFactory]) and of the auto-completion module that
    declares [UIAutoCompletableCmds] and [AutoCompleter].

    Conventions.
    - JavaScript strings are [string]; [s.length] is [String.length],
      [s.startsWith(p)] is [String.prefix p s], [s.indexOf(p, i)] is
      [String.index i p s] with [None] for [-1].
    - A [Map] or an object used as a dictionary is a [gmap string _].
    - A [Result<T, E>] of the neverthrow library is [Result T E]; a
      promise that may reject is a [Promise].
    - Collaborators that the factory receives or imports (file store,
      parsers, the SQLite engine and its scheduler) are fields of
      environment records, so every theorem quantifies over them. *)

From Stdlib Require Import String Ascii List Arith Lia Bool.
From stdpp Require Import gmap strings list.
From Equations Require Import Equations.
From Equations.Prop Require Import Logic.

Set Default Proof Using "Type".

(* ===================================================================== *)
(** * Values shared by the factory methods *)
(* ===================================================================== *)

(** [ERROR_STATUS] and [ERROR_SEVERITY] of [@dendronhq/common-all]; only
    the members that the factory names are distinguished. *)
Inductive ERROR_STATUS : Type :=
| NO_SCHEMA_FOUND
| OTHER_STATUS (name : string).

Inductive ERROR_SEVERITY : Type :=
| MINOR
| FATAL.

(** Error values: a plain JavaScript error (or any rejection reason), a
    [DendronError] built from [{ message, status, severity, payload }],
    and a [DendronCompositeError] over a list of errors. *)
#[warnings="-register-all"]
Inductive Error : Type :=
| JsError (message : string)
| DendronError (message : string) (status : option ERROR_STATUS)
               (severity : option ERROR_SEVERITY) (payload : option Error)
| DendronCompositeError (errors : list Error).

(** neverthrow's [Result<T, E>]. *)
Inductive Result (T E : Type) : Type :=
| Ok (value : T)
| Err (error : E).
Arguments Ok {T E} value.
Arguments Err {T E} error.

Definition isOk {T E} (r : Result T E) : bool :=
  match r with Ok _ => true | Err _ => false end.

(** A JavaScript call either returns a value or throws. *)
Inductive Completion (A E : Type) : Type :=
| Normal (a : A)
| Throw (e : E).
Arguments Normal {A E} a.
Arguments Throw {A E} e.

(** A settled promise. *)
Inductive Promise (A : Type) : Type :=
| Fulfilled (value : A)
| Rejected (reason : Error).
Arguments Fulfilled {A} value.
Arguments Rejected {A} reason.

(** [RespV3<T>]: either [{ data }] or [{ error }]. *)
Inductive RespV3 (T : Type) : Type :=
| RespData (data : T)
| RespError (error : Error).
Arguments RespData {T} data.
Arguments RespError {T} error.

(** [resp.data], [undefined] on an error response. *)
Definition resp_data {T} (r : RespV3 T) : option T :=
  match r with RespData d => Some d | RespError _ => None end.

(** [RespWithOptError<T>]: [{ data?, error? }]. *)
Record RespWithOptError (T : Type) : Type := mkResp {
  data : option T;
  error : option Error
}.
Arguments mkResp {T} data error.
Arguments data {T} _.
Arguments error {T} _.

Record DVault : Type := mkVault {
  fsPath : string;
  name : option string
}.

(** [URI.parse(s)] and [URI.file(s)] of vscode-uri, kept apart. *)
Inductive URI : Type :=
| URI_parse (value : string)
| URI_file (path : string).

(** [IFileStore]: [readDir({ root, include })]. *)
Record IFileStore : Type := mkFileStore {
  readDir : URI -> list string -> Promise (RespV3 (list string))
}.

Record SchemaProps : Type := mkSchema { id : string }.

(** [SchemaModuleProps]: the root schema, whose id keys the dictionary,
    and the file the module was read from. *)
Record SchemaModuleProps : Type := mkSchemaModule {
  root : SchemaProps;
  fname : string;
  vault : DVault
}.

(** What [SchemaParser.parse] resolves to:
    [{ schemas: SchemaModuleProps[], errors: DendronError[] | null }]. *)
Record SchemaParseResp : Type := mkParseResp {
  schemas : list SchemaModuleProps;
  errors : option (list Error)
}.

(** [xs.flatMap(f)] where [f] answers an array, [null] or [undefined]:
    an array is spliced in, anything else is kept as one element. *)
Definition flatMap {A B} (f : A -> option (list B)) (xs : list A)
    : list (option B) :=
  flat_map (fun x => match f x with
                     | Some ys => map Some ys
                     | None => [None]
                     end) xs.

(** [.filter(isNotNull)] and [.filter(isNotUndefined)]. *)
Definition filterDefined {B} (xs : list (option B)) : list B :=
  omap (fun x => x) xs.

(* ===================================================================== *)
(** * neverthrow combinators *)
(* ===================================================================== *)

Module Neverthrow.

(** [combineResultList]: the first [Err] in list order, or all values. *)
Definition combineResultList {T E} (l : list (Result T E))
    : Result (list T) E :=
  foldl (fun acc result =>
           match acc with
           | Ok vs => match result with
                      | Err e => Err e
                      | Ok v => Ok (vs ++ [v])
                      end
           | Err e => Err e
           end) (Ok []) l.

(** [combineResultListWithAllErrors]: every [Err] in list order if there
    is one, or all values. *)
Definition combineResultListWithAllErrors {T E} (l : list (Result T E))
    : Result (list T) (list E) :=
  foldl (fun acc result =>
           match result, acc with
           | Err e, Err es => Err (es ++ [e])
           | Err e, Ok _ => Err [e]
           | Ok v, Ok vs => Ok (vs ++ [v])
           | Ok _, Err es => Err es
           end) (Ok []) l.

(** [Promise.all]: rejects with a rejection of one of its members (the
    first in list order here), or fulfils with all values. *)
Fixpoint promiseAll {A} (ps : list (Promise A)) : Promise (list A) :=
  match ps with
  | [] => Fulfilled []
  | Rejected e :: _ => Rejected e
  | Fulfilled a :: rest =>
      match promiseAll rest with
      | Fulfilled vs => Fulfilled (a :: vs)
      | Rejected e => Rejected e
      end
  end.

(** [ResultAsync.combine] over settled members. *)
Definition combine {T E} (ps : list (Promise (Result T E)))
    : Promise (Result (list T) E) :=
  match promiseAll ps with
  | Fulfilled rs => Fulfilled (combineResultList rs)
  | Rejected e => Rejected e
  end.

(** [ResultUtils.PromiseRespV3ToResultAsync]: an error response, like a
    rejection, becomes an [Err]. *)
Definition PromiseRespV3ToResultAsync {T} (p : Promise (RespV3 T))
    : Result T Error :=
  match p with
  | Fulfilled (RespData d) => Ok d
  | Fulfilled (RespError e) => Err e
  | Rejected e => Err e
  end.

End Neverthrow.

(* ===================================================================== *)
(** * The SQLite connection *)
(* ===================================================================== *)

Module Sqlite.

Inductive Table : Type :=
| Vaults | NoteProps | Links
| VaultNotes | Hierarchy | SchemaNotes | NotePropsFts.

(** What the factory sends to the connection: [XTableUtils.createTable(db)]
    and [SqliteQueryUtils.run(db, sql)]. *)
Inductive Stmt : Type :=
| CreateTable (t : Table)
| Run (sql : string).

Definition Row : Type := Table * string.

Record Database : Type := mkDb {
  tables : list Table;
  foreign_keys : bool;
  rows : list Row
}.

(** History of a connection: a statement is issued when the factory
    makes the call, and executed when the engine gets to it. *)
Inductive Event : Type :=
| Issued (s : Stmt)
| Executed (s : Stmt) (err : option Error).

Record Conn : Type := mkConn {
  db : Database;
  log : list Event
}.

(** The engine: how a store opens ([new Database(path, cb)] calls back
    with an error, whose message is kept, or with the store), which
    statements fail in which state, and which pending statement it
    runs next (its answer is reduced modulo the number of pending ones). *)
Record Engine : Type := mkEngine {
  open : string -> Result Database string;
  sqlError : Stmt -> Database -> option Error;
  pick : Database -> list Stmt -> nat
}.

Definition PRAGMA_FK : string := "PRAGMA foreign_keys = ON".

#[global] Instance Table_eq_dec : EqDecision Table.
Proof. solve_decision. Defined.

(** The effect of a statement that ran without error.  A connection holds
    a table once: creating a table that is there already changes nothing. *)
Definition apply_stmt (s : Stmt) (d : Database) : Database :=
  match s with
  | CreateTable t =>
      if decide (t ∈ tables d)
      then d
      else mkDb (t :: tables d) (foreign_keys d) (rows d)
  | Run sql =>
      if String.eqb sql PRAGMA_FK
      then mkDb (tables d) true (rows d)
      else d
  end.

Definition exec (eng : Engine) (s : Stmt) (c : Conn)
    : Conn * Result unit Error :=
  match sqlError eng s (db c) with
  | Some e => (mkConn (db c) (log c ++ [Executed s (Some e)]), Err e)
  | None => (mkConn (apply_stmt s (db c)) (log c ++ [Executed s None]), Ok tt)
  end.

(** The calls of an array literal are made left to right. *)
Definition issue (stmts : list Stmt) (c : Conn) : Conn :=
  mkConn (db c) (log c ++ map Issued stmts).

(** The engine runs the pending statements one by one in the order it
    picks; the result of the statement at position [k] of the batch
    lands in slot [k], as in [Promise.all]. *)
Fixpoint settle (eng : Engine) (n : nat) (pending : list (nat * Stmt))
    (c : Conn) (slots : list (option (Result unit Error)))
    : Conn * list (option (Result unit Error)) :=
  match n with
  | 0 => (c, slots)
  | S n' =>
      let i := pick eng (db c) (map snd pending) mod length pending in
      match pending !! i with
      | None => (c, slots)
      | Some (k, s) =>
          let '(c', r) := exec eng s c in
          settle eng n' (delete i pending) c' (<[k := Some r]> slots)
      end
  end.

(** [ResultAsync.combine([stmt_0(db), ..., stmt_n(db)])]: every statement
    is issued, then all of them settle, then the results are combined
    in list order. *)
Definition combine (eng : Engine) (stmts : list Stmt) (c : Conn)
    : Conn * Result (list unit) Error :=
  let c1 := issue stmts c in
  let '(c2, slots) :=
    settle eng (length stmts) (imap (fun k s => (k, s)) stmts) c1
           (replicate (length stmts) None) in
  (c2, Neverthrow.combineResultList (filterDefined slots)).

End Sqlite.

(* ===================================================================== *)
(** * SqliteDbFactory *)
(* ===================================================================== *)

Module SqliteDbFactory.
Import Sqlite.

(** What the factory imports from the rest of the repository.
    [parseAllNoteFilesForSqlite(files, vault, db, vaultPath, false, logger)]
    works on the connection and either returns a value (a result that
    may itself carry an error) or throws. *)
Record Imports : Type := mkImports {
  vault2Path : DVault -> string -> string;
  getName : DVault -> string;
  parseAllNoteFilesForSqlite :
    option (list string) -> DVault -> Conn -> string ->
    Conn * Completion (Result unit Error) Error;
  SchemaParser_parse : string -> list string -> DVault -> SchemaParseResp
}.

(** The outcome of a factory call on a store: the connection it leaves
    behind (none when the store did not open) and what the caller gets. *)
Record Outcome (A : Type) : Type := mkRun {
  world : option Conn;
  result : A
}.
Arguments mkRun {A} world result.
Arguments world {A} _.
Arguments result {A} _.

Definition phase1 : list Stmt :=
  [CreateTable Vaults; CreateTable NoteProps; CreateTable Links].

Definition phase2 : list Stmt :=
  [CreateTable VaultNotes; CreateTable Hierarchy; CreateTable SchemaNotes;
   CreateTable NotePropsFts; Run PRAGMA_FK].

(** [public static createEmptyDB(dbFilePath)] *)
Definition createEmptyDB (eng : Engine) (dbFilePath : string)
    : Outcome (Result Conn Error) :=
  match open eng dbFilePath with
  | Err message => mkRun None (Err (JsError message))
  | Ok store =>
      let c0 := mkConn store [] in
      let '(c1, r1) := combine eng phase1 c0 in
      match r1 with
      | Err e => mkRun (Some c1) (Err e)
      | Ok _ =>
          let '(c2, r2) := combine eng phase2 c1 in
          match r2 with
          | Err e => mkRun (Some c2) (Err e)
          | Ok _ => mkRun (Some c2) (Ok c2)
          end
      end
  end.

(** One element of [vaults.map((vault) => ...)] in [createInitializedDB]:
    [ResultAsync.fromPromise(readDir, (e) => e).map(parse)].  [map] wraps
    whatever its callback returns in [Ok]; a throwing callback rejects
    the promise underneath. *)
Definition ingestVault (imp : Imports) (wsRoot : string)
    (fileStore : IFileStore) (v : DVault) (c : Conn)
    : Conn * Promise (Result (Result unit Error) Error) :=
  let vaultPath := vault2Path imp v wsRoot in
  match readDir fileStore (URI_parse vaultPath) ["*.md"] with
  | Rejected e => (c, Fulfilled (Err e))
  | Fulfilled maybeFiles =>
      match parseAllNoteFilesForSqlite imp (resp_data maybeFiles) v c
                                       vaultPath with
      | (c', Normal parsed) => (c', Fulfilled (Ok parsed))
      | (c', Throw e) => (c', Rejected e)
      end
  end.

(** The vaults' tasks share the connection; they are threaded in list
    order, one of the interleavings the event loop allows. *)
Fixpoint ingestVaults (imp : Imports) (wsRoot : string)
    (fileStore : IFileStore) (vaults : list DVault) (c : Conn)
    : Conn * list (Promise (Result (Result unit Error) Error)) :=
  match vaults with
  | [] => (c, [])
  | v :: rest =>
      let '(c1, p) := ingestVault imp wsRoot fileStore v c in
      let '(c2, ps) := ingestVaults imp wsRoot fileStore rest c1 in
      (c2, p :: ps)
  end.

(** [public static async createInitializedDB(wsRoot, vaults, fileStore,
    dbFilePath, logger)] *)
Definition createInitializedDB (imp : Imports) (eng : Engine)
    (wsRoot : string) (vaults : list DVault) (fileStore : IFileStore)
    (dbFilePath : string) : Outcome (Promise (Result Conn Error)) :=
  let empty := createEmptyDB eng dbFilePath in
  match result empty with
  | Err e => mkRun (world empty) (Fulfilled (Err e))
  | Ok c =>
      let '(c', ps) := ingestVaults imp wsRoot fileStore vaults c in
      match Neverthrow.combine ps with
      | Rejected e => mkRun (Some c') (Rejected e)
      | Fulfilled (Err e) => mkRun (Some c') (Fulfilled (Err e))
      | Fulfilled (Ok _) => mkRun (Some c') (Fulfilled (Ok c'))
      end
  end.

(** ** initSchema *)

(** The two locals of [initSchema] that its callback closes over. *)
Record Heap : Type := mkHeap {
  schemaDict : gmap string SchemaModuleProps;
  errorsVar : list Error
}.

(** The object that [const schemaDict] is bound to; [okAsync(schemaDict)]
    hands out this reference, not a copy. *)
Inductive Ref : Type := SchemaDictRef.

(** A promise reaction waiting for its turn. *)
Definition Job : Type := Heap -> Heap.

(** [promise.then(cb)] and so [resultAsync.map(cb)] only enqueue [cb]:
    a reaction never runs before the code that registered it returns. *)
Definition enqueue (job : Job) (st : Heap * list Job) : Heap * list Job :=
  (st.1, st.2 ++ [job]).

Definition runJobs (jobs : list Job) (h : Heap) : Heap :=
  foldl (fun acc job => job acc) h jobs.

(** One element of [vaults.map((vault) => ...)] in [initSchema]. *)
Definition discoverVault (imp : Imports) (wsRoot : string)
    (fileStore : IFileStore) (v : DVault) : Result SchemaParseResp Error :=
  let vaultPath := vault2Path imp v wsRoot in
  match Neverthrow.PromiseRespV3ToResultAsync
          (readDir fileStore (URI_file vaultPath) ["*.schema.yml"]) with
  | Err e => Err e
  | Ok schemaFiles => Ok (SchemaParser_parse imp wsRoot schemaFiles v)
  end.

(** [schemas.forEach((schema) => { schemaDict[schema.root.id] = schema })] *)
Definition mergeSchemas (ss : list SchemaModuleProps)
    (d : gmap string SchemaModuleProps) : gmap string SchemaModuleProps :=
  foldl (fun acc schema => <[id (root schema) := schema]> acc) d ss.

(** The callback given to [.map((res) => { ... })]. *)
Definition initSchemaCallback (res : list SchemaParseResp) : Job :=
  fun h =>
    let errs := filterDefined (flatMap errors res) in
    let ss := filterDefined (flatMap (fun r => Some (schemas r)) res) in
    mkHeap (mergeSchemas ss (schemaDict h)) errs.

(** [combineWithAllErrors(...).map(callback)]: the callback runs only on
    [Ok]; nothing consumes an [Err]. *)
Definition initSchemaJob (imp : Imports) (wsRoot : string)
    (fileStore : IFileStore) (vaults : list DVault) : Job :=
  fun h =>
    match Neverthrow.combineResultListWithAllErrors
            (map (discoverVault imp wsRoot fileStore) vaults) with
    | Ok res => initSchemaCallback res h
    | Err _ => h
    end.

Record InitSchemaRun : Type := mkInitSchemaRun {
  returned : Result Ref Error;
  heapAtReturn : Heap;
  heapSettled : Heap
}.

(** [static initSchema(vaults, wsRoot, fileStore, logger)] *)
Definition initSchema (imp : Imports) (vaults : list DVault)
    (wsRoot : string) (fileStore : IFileStore) : InitSchemaRun :=
  let st0 : Heap * list Job := (mkHeap ∅ [], []) in
  let st1 := enqueue (initSchemaJob imp wsRoot fileStore vaults) st0 in
  let ret :=
    if 0 <? length (errorsVar st1.1)
    then Err (DendronCompositeError (errorsVar st1.1))
    else Ok SchemaDictRef in
  mkInitSchemaRun ret st1.1 (runJobs st1.2 st1.1).

(** ** readAllSchema *)

Definition noSchemaError (imp : Imports) (v : DVault)
    (payload : option Error) : Error :=
  DendronCompositeError
    [DendronError ("Unable to get schemas for vault " +:+ getName imp v)
                  (Some NO_SCHEMA_FOUND) (Some MINOR) payload].

(** The body of [vaults.map(async (vault) => ...)] in [readAllSchema]. *)
Definition readVaultSchemas (imp : Imports) (wsRoot : string)
    (fileStore : IFileStore) (v : DVault)
    : Promise (RespWithOptError (list SchemaModuleProps)) :=
  let vpath := vault2Path imp v wsRoot in
  match readDir fileStore (URI_file vpath) ["*.schema.yml"] with
  | Rejected e => Rejected e
  | Fulfilled (RespError e) =>
      Fulfilled (mkResp (Some []) (Some (noSchemaError imp v (Some e))))
  | Fulfilled (RespData files) =>
      if length files =? 0
      then Fulfilled (mkResp (Some []) (Some (noSchemaError imp v None)))
      else
        let schemaFiles := map (fun entry => entry) files in
        let parsed := SchemaParser_parse imp wsRoot schemaFiles v in
        Fulfilled (mkResp (Some (schemas parsed))
                          (match errors parsed with
                           | None => None
                           | Some es => Some (DendronCompositeError es)
                           end))
  end.

(** [static async readAllSchema(vaults, wsRoot, fileStore, logger)].
    In [flatMap((response) => response.error)] an error object is not an
    array, so it is kept as one element; [undefined] is filtered out. *)
Definition readAllSchema (imp : Imports) (vaults : list DVault)
    (wsRoot : string) (fileStore : IFileStore)
    : Promise (RespWithOptError (list SchemaModuleProps)) :=
  match Neverthrow.promiseAll
          (map (readVaultSchemas imp wsRoot fileStore) vaults) with
  | Rejected e => Rejected e
  | Fulfilled schemaResponses =>
      let errs :=
        filterDefined
          (flatMap (fun response =>
                      match error response with
                      | Some e => Some [e]
                      | None => None
                      end) schemaResponses) in
      Fulfilled
        (mkResp
           (Some (filterDefined (flatMap data schemaResponses)))
           (if 0 <? length errs
            then Some (DendronCompositeError errs)
            else None))
  end.

(** ** The note parser, from the specification *)

(** Modelled from the spec: [parseAllNoteFilesForSqlite] (module
    [../file]) is not among the sources.  §4.2: each listed entry is
    parsed into a note record with its derived edges by the external
    parser, and the resulting rows are written to the store; a vault with
    zero matching files is not an error and contributes zero rows.  §6:
    the parser returns its errors as values.  [parseNote] is the external
    per-file parser; [onUndefined] is what happens when the listing
    carried no data, about which the specification is silent. *)
Definition parseAllNoteFilesForSqlite_spec
    (parseNote : DVault -> string -> Result (list Row) Error)
    (onUndefined : DVault -> Conn -> Conn * Completion (Result unit Error) Error)
    (files : option (list string)) (v : DVault) (c : Conn)
    (vaultPath : string) : Conn * Completion (Result unit Error) Error :=
  match files with
  | None => onUndefined v c
  | Some fs =>
      let step (acc : Database * list Error) (f : string) :=
        match parseNote v f with
        | Ok new =>
            (mkDb (tables acc.1) (foreign_keys acc.1) (rows acc.1 ++ new),
             acc.2)
        | Err e => (acc.1, acc.2 ++ [e])
        end in
      let '(d, errs) := foldl step (db c, []) fs in
      (mkConn d (log c),
       Normal (if 0 <? length errs
               then Err (DendronCompositeError errs)
               else Ok tt))
  end.

(** The imports with the note parser of the specification. *)
Definition specImports
    (vault2Path_ : DVault -> string -> string) (getName_ : DVault -> string)
    (parseNote : DVault -> string -> Result (list Row) Error)
    (onUndefined : DVault -> Conn -> Conn * Completion (Result unit Error) Error)
    (parse_ : string -> list string -> DVault -> SchemaParseResp) : Imports :=
  mkImports vault2Path_ getName_
            (parseAllNoteFilesForSqlite_spec parseNote onUndefined) parse_.

End SqliteDbFactory.

(* ===================================================================== *)
(** * Auto-completion *)
(* ===================================================================== *)

(** [ErrorFactory.createInvalidStateError({ message })]. *)
Inductive FactoryError : Type :=
| InvalidStateError (message : string).

Module UIAutoCompletableCmds.

(** [enum AUTO_COMPLETABLE_COMMAND_ID { NOTE_LOOKUP = "NOTE_LOOKUP" }]:
    a string enum, whose members are their string values at run time. *)
Definition NOTE_LOOKUP : string := "NOTE_LOOKUP".

Section Registry.
(** [AutoCompletableCmd]: the command instances, compared by identity. *)
Context {Cmd : Type}.

(** [static _UI_AUTOCOMPLETE_COMMANDS = new Map<...>()] *)
Definition _UI_AUTOCOMPLETE_COMMANDS : gmap string Cmd := ∅.

Definition registerIfNotRegistered
    (id : string) (cmd : Cmd) (m : gmap string Cmd) : gmap string Cmd :=
  match m !! id with
  | None => <[id := cmd]> m
  | Some _ => m
  end.

Definition getCmd (id : string) (m : gmap string Cmd)
    : Completion Cmd FactoryError :=
  match m !! id with
  | None =>
      Throw (InvalidStateError
               ("UI command instance does not exist for '" +:+ id +:+ "'"))
  | Some cmd => Normal cmd
  end.

(** A sequence of [registerIfNotRegistered] calls, oldest first. *)
Definition registerAll (calls : list (string * Cmd)) (m : gmap string Cmd)
    : gmap string Cmd :=
  foldl (fun acc call => registerIfNotRegistered call.1 call.2 acc) m calls.

(** The instance of the first call in [calls] made for [id], if any. *)
Fixpoint firstRegistered (id : string) (calls : list (string * Cmd))
    : option Cmd :=
  match calls with
  | [] => None
  | (i, c) :: rest =>
      if String.eqb i id then Some c else firstRegistered id rest
  end.
End Registry.

End UIAutoCompletableCmds.

Module AutoCompleter.

(** [a.includes(x)] on an array of strings. *)
Definition includes (x : string) (a : list string) : bool :=
  existsb (String.eqb x) a.

(** [s.includes(p)] on strings. *)
Definition str_includes (p s : string) : bool :=
  match String.index 0 p s with
  | Some _ => true
  | None => false
  end.

(** [s.indexOf(p, i)] never answers a position before [i]. *)
Lemma index_ge (p s : string) :
  forall n i, String.index n p s = Some i -> n <= i.
Proof.
  induction s as [|c s IH]; intros [|n] i H; simpl in H;
    try lia; try discriminate.
  destruct (String.index n p s) as [j|] eqn:E; [|discriminate].
  injection H as <-. apply IH in E. lia.
Qed.

(** [private static matchPrefixTillNextDot(topPick, value, minIdx)].
    [startSearchIdx] is [Nat.max (String.length value) minIdx]. *)
Equations? matchPrefixTillNextDot (topPick value : string) (minIdx : nat)
    : string by wf (S (String.length value) - minIdx) lt :=
  matchPrefixTillNextDot topPick value minIdx
    with Nat.leb (String.length topPick)
                 (Nat.max (String.length value) minIdx) => {
    | true := topPick
    | false
        with inspect (String.index (Nat.max (String.length value) minIdx)
                                   "." topPick) => {
      | exist _ None _ := topPick
      | exist _ (Some dotIdx) Hdot
          with Nat.eq_dec dotIdx (String.length value) => {
        | left _ := matchPrefixTillNextDot topPick value (dotIdx + 1)
        | right _ := String.substring 0 dotIdx topPick } } }.
Proof. apply index_ge in Hdot. lia. Qed.

(** [private static matchNoteUpToCurrValue(topPick, currentValue)] *)
Definition matchNoteUpToCurrValue (topPick currentValue : string) : string :=
  match String.index 0 currentValue topPick with
  | None => topPick
  | Some idx => String.substring 0 idx topPick +:+ currentValue
  end.

Section Lookup.
(** [FuseEngine.doesContainSpecialQueryChars], imported from
    [@dendronhq/common-all]. *)
Variable doesContainSpecialQueryChars : string -> bool.

(** [fnames[i]]; every access below is within bounds. *)
Definition at_ (fnames : list string) (i : nat) : string :=
  nth i fnames EmptyString.

(** [static autoCompleteNoteLookup(currentValue, activeItemValue, fnames)] *)
Definition autoCompleteNoteLookup
    (currentValue activeItemValue : string) (fnames : list string)
    : string :=
  if length fnames =? 0 then currentValue
  else
    let topPickIdx := 0 in
    if negb (String.eqb currentValue activeItemValue)
       && includes activeItemValue fnames
    then activeItemValue
    else if doesContainSpecialQueryChars currentValue
    then at_ fnames topPickIdx
    else if String.length (at_ fnames topPickIdx)
            <? String.length currentValue
    then currentValue
    else if String.prefix currentValue (at_ fnames topPickIdx) then
      if String.eqb (at_ fnames topPickIdx) currentValue then
        if (topPickIdx <? length fnames - 1)
           && String.prefix currentValue (at_ fnames (topPickIdx + 1))
        then matchPrefixTillNextDot (at_ fnames (topPickIdx + 1))
                                    currentValue 0
        else at_ fnames topPickIdx
      else matchPrefixTillNextDot (at_ fnames topPickIdx) currentValue 0
    else if str_includes currentValue (at_ fnames topPickIdx)
    then matchNoteUpToCurrValue (at_ fnames topPickIdx) currentValue
    else at_ fnames topPickIdx.
End Lookup.

End AutoCompleter.

(* ===================================================================== *)
(** * Vocabulary of the statements *)
(* ===================================================================== *)

Section Vocabulary.
Import Sqlite SqliteDbFactory.

(** The result that the caller sees for a logged outcome. *)
Definition resultOf (err : option Error) : Result unit Error :=
  match err with
  | None => Ok tt
  | Some e => Err e
  end.

(** A statement that ran without error has had its effect. *)
Definition effective (x : Stmt * option Error) (d : Database) : Prop :=
  match x with
  | (CreateTable t, None) => t ∈ tables d
  | (Run sql, None) => sql = PRAGMA_FK -> foreign_keys d = true
  | (_, Some _) => True
  end.

Definition extends (d d' : Database) : Prop :=
  (forall t, t ∈ tables d -> t ∈ tables d')
  /\ (foreign_keys d = true -> foreign_keys d' = true)
  /\ rows d' = rows d.

(** The executions that a batch leaves in the log. *)
Definition executed (done : list (Stmt * option Error)) : list Event :=
  map (fun x => Executed x.1 x.2) done.

Definition allSucceeded (done : list (Stmt * option Error)) : Prop :=
  forall x, x ∈ done -> x.2 = None.

(** [e2] never happens before [e1] has happened. *)
Definition precedes (e1 e2 : Event) (l : list Event) : Prop :=
  forall l1 l2, l = l1 ++ e2 :: l2 -> e1 ∈ l1.

Definition created (t : Table) : Event := Executed (CreateTable t) None.

Definition phase1Tables : list Table := [Vaults; NoteProps; Links].
Definition phase2Tables : list Table :=
  [VaultNotes; Hierarchy; SchemaNotes; NotePropsFts].

Definition pragmaIssued : Event := Issued (Run PRAGMA_FK).

(** The ordering as the specification words it: the pragma is never
    issued before the four phase-2 tables have been created, and no
    phase-2 table is created before the three phase-1 tables have been. *)
Definition pragmaAfterSchema (l : list Event) : Prop :=
  (forall t, t ∈ phase2Tables -> precedes (created t) pragmaIssued l)
  /\ (forall t1 t2 r, t1 ∈ phase1Tables -> t2 ∈ phase2Tables ->
        precedes (created t1) (Executed (CreateTable t2) r) l).

(** The schema with root id [k] that was written last. *)
Definition lastWithRoot (k : string) (ss : list SchemaModuleProps)
    : option SchemaModuleProps :=
  last (filter (fun s => id (root s) = k) ss).

(** The listing of every vault answered its files. *)
Definition allListed (imp : Imports) (wsRoot : string)
    (fileStore : IFileStore) (vaults : list DVault) : Prop :=
  forall v, v ∈ vaults ->
    exists files,
      readDir fileStore (URI_file (vault2Path imp v wsRoot))
              ["*.schema.yml"] = Fulfilled (RespData files).

(** What the schema parser answers for a vault, given its listing. *)
Definition parsedOf (imp : Imports) (wsRoot : string)
    (fileStore : IFileStore) (v : DVault) : list SchemaModuleProps :=
  match readDir fileStore (URI_file (vault2Path imp v wsRoot))
                ["*.schema.yml"] with
  | Fulfilled (RespData files) =>
      schemas (SchemaParser_parse imp wsRoot files v)
  | _ => []
  end.

(** The listing of no vault rejects. *)
Definition noneRejects (imp : Imports) (wsRoot : string)
    (fileStore : IFileStore) (vaults : list DVault) : Prop :=
  forall v, v ∈ vaults ->
    exists resp,
      readDir fileStore (URI_file (vault2Path imp v wsRoot))
              ["*.schema.yml"] = Fulfilled resp.
End Vocabulary.

(* ===================================================================== *)
(** * Scenarios *)
(* ===================================================================== *)

Module Scenarios.
Import Sqlite SqliteDbFactory.

Definition freshStore : Database := mkDb [] false [].

(** An engine on which nothing fails and statements run in issue order. *)
Definition fifoEngine : Engine :=
  mkEngine (fun _ => Ok freshStore) (fun _ _ => None) (fun _ _ => 0).

(** The same engine running the most recently issued statement first. *)
Definition lifoEngine : Engine :=
  mkEngine (fun _ => Ok freshStore) (fun _ _ => None)
           (fun _ pending => length pending - 1).

(** An engine on which creating the Hierarchy table fails. *)
Definition hierarchyFails : Engine :=
  mkEngine (fun _ => Ok freshStore)
           (fun s _ => match s with
                       | CreateTable Hierarchy => Some (JsError "SQLITE_ERROR")
                       | _ => None
                       end)
           (fun _ _ => 0).

(** An engine whose store cannot be opened. *)
Definition cannotOpen : Engine :=
  mkEngine (fun _ => Err "SQLITE_CANTOPEN") (fun _ _ => None) (fun _ _ => 0).

Definition vault1 : DVault := mkVault "vault1" None.
Definition vault2 : DVault := mkVault "vault2" (Some "second").

Definition joinPath (v : DVault) (wsRoot : string) : string :=
  wsRoot +:+ "/" +:+ fsPath v.

Definition displayName (v : DVault) : string :=
  match name v with
  | Some n => n
  | None => fsPath v
  end.

(** A listing with one entry per pattern for every vault. *)
Definition oneFilePerVault : IFileStore :=
  mkFileStore (fun _ include => Fulfilled (RespData include)).

(** A listing that answers an error response for every vault. *)
Definition unreadable : IFileStore :=
  mkFileStore (fun _ _ => Fulfilled (RespError (JsError "EACCES"))).

(** A listing that finds nothing in [vault1] and one file elsewhere. *)
Definition isVault1Root (u : URI) : bool :=
  match u with
  | URI_file p => String.eqb p "/ws/vault1"
  | URI_parse _ => false
  end.

Definition emptyVault1 : IFileStore :=
  mkFileStore (fun root_ _ =>
    Fulfilled (RespData (if isVault1Root root_
                         then []
                         else ["foo.schema.yml"]))).

Definition goodSchema (v : DVault) (f : string) : SchemaModuleProps :=
  mkSchemaModule (mkSchema "foo") f v.

(** A schema parser that reads one module with root id [foo] per file. *)
Definition parsesFoo (wsRoot : string) (files : list string) (v : DVault)
    : SchemaParseResp :=
  mkParseResp (map (goodSchema v) files) None.

(** A schema parser on which every file fails. *)
Definition badYaml : Error :=
  DendronError "bad yaml" (Some (OTHER_STATUS "bad_parse_for_schema"))
               (Some FATAL) None.

Definition parsesNothing (wsRoot : string) (files : list string) (v : DVault)
    : SchemaParseResp :=
  mkParseResp [] (Some (map (fun _ => badYaml) files)).

(** A note parser that returns an error for whatever it is given. *)
Definition parseFailed : Result unit Error := Err (JsError "parse failed").

Definition noteParserFails : Imports :=
  mkImports joinPath displayName
            (fun _ _ c _ => (c, Normal parseFailed))
            parsesFoo.

(** A note parser that returns normally for whatever it is given. *)
Definition noteParserAccepts : Imports :=
  mkImports joinPath displayName
            (fun _ _ c _ => (c, Normal (Ok tt)))
            parsesFoo.

Definition schemaParserFails : Imports :=
  mkImports joinPath displayName
            (fun _ _ c _ => (c, Normal (Ok tt)))
            parsesNothing.
End Scenarios.

(* ===================================================================== *)
(** * Vocabulary of the further statements *)
(* ===================================================================== *)

Section MoreVocabulary.
Import Sqlite SqliteDbFactory AutoCompleter.

(** The statements that a log records as issued, in order. *)
Definition issuedIn (l : list Event) : list Stmt :=
  omap (fun ev => match ev with
                  | Issued s => Some s
                  | Executed _ _ => None
                  end) l.

(** The statements that a log records as executed, in order. *)
Definition executedIn (l : list Event) : list Stmt :=
  omap (fun ev => match ev with
                  | Issued _ => None
                  | Executed s _ => Some s
                  end) l.

Definition allTables : list Table :=
  [Vaults; NoteProps; Links; VaultNotes; Hierarchy; SchemaNotes; NotePropsFts].

(** The note parser returns normally for vault [v], whatever it is given. *)
Definition neverThrows (imp : Imports) (v : DVault) : Prop :=
  forall files c vaultPath,
    exists c' parsed,
      parseAllNoteFilesForSqlite imp files v c vaultPath = (c', Normal parsed).

(** What the listing of the note files of [v] settles to. *)
Definition noteListing (imp : Imports) (wsRoot : string)
    (fileStore : IFileStore) (v : DVault) : Promise (RespV3 (list string)) :=
  readDir fileStore (URI_parse (vault2Path imp v wsRoot)) ["*.md"].

(** What the listing of the schema files of [v] settles to. *)
Definition schemaListing (imp : Imports) (wsRoot : string)
    (fileStore : IFileStore) (v : DVault) : Promise (RespV3 (list string)) :=
  readDir fileStore (URI_file (vault2Path imp v wsRoot)) ["*.schema.yml"].

(** The parse errors that the schema parser reports for a vault, given its
    listing. *)
Definition parseErrorsOf (imp : Imports) (wsRoot : string)
    (fileStore : IFileStore) (v : DVault) : list Error :=
  match schemaListing imp wsRoot fileStore v with
  | Fulfilled (RespData files) =>
      match errors (SchemaParser_parse imp wsRoot files v) with
      | Some es => es
      | None => []
      end
  | _ => []
  end.

(** The branch that returns the item in focus is not taken. *)
Definition noItemInFocus (currentValue activeItemValue : string)
    (fnames : list string) : Prop :=
  negb (String.eqb currentValue activeItemValue)
  && includes activeItemValue fnames = false.
End MoreVocabulary.

Module MoreScenarios.
Import Sqlite SqliteDbFactory Scenarios.

(** An engine on which creating the Links table fails and which runs the
    most recently issued statement first. *)
Definition linksFails : Engine :=
  mkEngine (fun _ => Ok freshStore)
           (fun s _ => match s with
                       | CreateTable Links => Some (JsError "SQLITE_ERROR")
                       | _ => None
                       end)
           (fun _ pending => length pending - 1).

(** A store that was initialized before: it holds two of the schema's
    tables and a row, and enforces referential integrity already. *)
Definition reopenedStore : Database :=
  mkDb [NoteProps; Vaults] true [(NoteProps, "root")].

(** An engine that opens that store and runs the most recently issued
    statement first. *)
Definition reopens : Engine :=
  mkEngine (fun _ => Ok reopenedStore) (fun _ _ => None)
           (fun _ pending => length pending - 1).

Definition rootPath (u : URI) : string :=
  match u with
  | URI_parse s => s
  | URI_file s => s
  end.

(** A listing whose promise rejects for [vault2] and that answers one entry
    per pattern elsewhere. *)
Definition rejectsVault2 : IFileStore :=
  mkFileStore (fun root_ include =>
    if String.eqb (rootPath root_) "/ws/vault2"
    then Rejected (JsError "ENOENT")
    else Fulfilled (RespData include)).

(** A note parser that throws for [vault2] and returns normally elsewhere. *)
Definition throwsOnVault2 : Imports :=
  mkImports joinPath displayName
            (fun _ v c _ =>
               if String.eqb (fsPath v) "vault2"
               then (c, Throw (JsError "cannot parse"))
               else (c, Normal (Ok tt)))
            parsesFoo.
End MoreScenarios.

(* ===================================================================== *)
(** * Facts about the combinators *)
(* ===================================================================== *)

Section CombinatorFacts.
Context {T E : Type}.

Lemma combineResultList_isOk (l : list (Result T E)) :
  isOk (Neverthrow.combineResultList l) = forallb isOk l.
Proof.
  unfold Neverthrow.combineResultList.
  assert (G : forall (acc : Result (list T) E),
             isOk (foldl (fun acc result =>
               match acc with
               | Ok vs => match result with
                          | Err e => Err e
                          | Ok v => Ok (vs ++ [v])
                          end
               | Err e => Err e
               end) acc l) = isOk acc && forallb isOk l).
  { induction l as [|r l IH]; intros acc; simpl.
    - by rewrite andb_true_r.
    - rewrite IH. destruct acc, r; simpl; reflexivity. }
  by rewrite G.
Qed.

Lemma combineWithAllErrors_all_ok (vs : list T) :
  Neverthrow.combineResultListWithAllErrors (map (@Ok T E) vs) = Ok vs.
Proof.
  unfold Neverthrow.combineResultListWithAllErrors.
  assert (G : forall (acc : list T),
             foldl (fun acc result =>
               match result, acc with
               | Err e, Err es => Err (es ++ [e])
               | Err e, Ok _ => Err [e]
               | Ok v, Ok vs => Ok (vs ++ [v])
               | Ok _, Err es => Err es
               end) (Ok acc) (map (@Ok T E) vs)
             = (Ok (acc ++ vs) : Result (list T) (list E))).
  { induction vs as [|v vs IH]; intros acc; simpl.
    - by rewrite app_nil_r.
    - rewrite IH. by rewrite <- app_assoc. }
  apply (G []).
Qed.
End CombinatorFacts.

Lemma filterDefined_flatMap_Some {A B} (f : A -> list B) (xs : list A) :
  filterDefined (flatMap (fun x => Some (f x)) xs) = flat_map f xs.
Proof.
  unfold filterDefined, flatMap.
  induction xs as [|x xs IH]; simpl; [done|].
  rewrite omap_app, IH. f_equal.
  induction (f x) as [|y ys IHy]; simpl; [done|]. f_equal. exact IHy.
Qed.

(* ===================================================================== *)
(** * Facts about the connection *)
(* ===================================================================== *)

Section SqliteFacts.
Import Sqlite.
Variable eng : Engine.

Lemma extends_refl d : extends d d.
Proof. by repeat split. Qed.

Lemma extends_trans d1 d2 d3 : extends d1 d2 -> extends d2 d3 -> extends d1 d3.
Proof.
  intros (A1 & B1 & C1) (A2 & B2 & C2). repeat split; auto; congruence.
Qed.

Lemma apply_stmt_extends s d : extends d (apply_stmt s d).
Proof.
  destruct s as [t|sql]; simpl.
  - case_decide; [apply extends_refl|].
    repeat split; simpl; auto. intros t' Ht. by right.
  - destruct (String.eqb sql PRAGMA_FK); repeat split; simpl; auto.
Qed.

Lemma effective_extends x d d' : extends d d' -> effective x d -> effective x d'.
Proof.
  intros (A & B & C). destruct x as [[t|sql] [e|]]; simpl; auto.
Qed.

Lemma exec_spec s c :
  exists err,
    (exec eng s c).2 = resultOf err
    /\ log (exec eng s c).1 = log c ++ [Executed s err]
    /\ extends (db c) (db (exec eng s c).1)
    /\ effective (s, err) (db (exec eng s c).1).
Proof.
  unfold exec. destruct (sqlError eng s (db c)) as [e|] eqn:He; simpl.
  - exists (Some e). repeat split; auto using extends_refl.
    by destruct s.
  - exists None. repeat split; auto; try apply apply_stmt_extends.
    destruct s as [t|sql]; simpl.
    + case_decide; [done|by left].
    + intros ->. by rewrite String.eqb_refl.
Qed.

(** Every pending statement is executed exactly once, in some order,
    and its result lands in the slot of its position. *)
Lemma settle_spec n : forall pending c slots,
  length pending = n ->
  NoDup pending.*1 ->
  (forall k s, (k, s) ∈ pending -> k < length slots) ->
  exists done : list (nat * Stmt * option Error),
    fst <$> done ≡ₚ pending
    /\ log (settle eng n pending c slots).1
       = log c ++ map (fun x => Executed x.1.2 x.2) done
    /\ length (settle eng n pending c slots).2 = length slots
    /\ (forall k, k ∉ pending.*1 ->
          (settle eng n pending c slots).2 !! k = slots !! k)
    /\ (forall x, x ∈ done ->
          (settle eng n pending c slots).2 !! x.1.1 = Some (Some (resultOf x.2)))
    /\ extends (db c) (db (settle eng n pending c slots).1)
    /\ (forall x, x ∈ done ->
          effective (x.1.2, x.2) (db (settle eng n pending c slots).1)).
Proof.
  induction n as [|n IH]; intros pending c slots Hlen Hnd Hlt.
  - destruct pending; [|done]. exists []. simpl.
    rewrite app_nil_r. split_and!; auto using extends_refl.
    all: intros x Hx; by apply elem_of_nil in Hx.
  - simpl.
    set (i := pick eng (db c) (map snd pending) mod length pending).
    assert (Hi : i < length pending).
    { apply Nat.mod_upper_bound. lia. }
    destruct (lookup_lt_is_Some_2 _ _ Hi) as [[k s] Hks].
    rewrite Hks.
    destruct (exec_spec s c) as (err & Hr & Hlog & Hext & Heff).
    destruct (exec eng s c) as [c' r] eqn:Hexec. simpl in *. subst r.
    pose proof (delete_Permutation _ _ _ Hks) as Hperm.
    assert (Hnd' : NoDup ((k, s) :: delete i pending).*1).
    { by rewrite <- Hperm. }
    rewrite fmap_cons in Hnd'. apply NoDup_cons in Hnd' as [Hk Hnd'].
    destruct (IH (delete i pending) c' (<[k := Some (resultOf err)]> slots))
      as (done & Hd1 & Hd2 & Hd3 & Hd4 & Hd5 & Hd6 & Hd7).
    { rewrite length_delete; [lia | eauto]. }
    { done. }
    { intros k' s' Hin. rewrite length_insert.
      eapply Hlt, list_elem_of_delete_inv, Hin. }
    exists ((k, s, err) :: done). split_and!.
    + rewrite fmap_cons. simpl. rewrite Hd1. by symmetry.
    + rewrite Hd2, Hlog. simpl. by rewrite <- app_assoc.
    + by rewrite Hd3, length_insert.
    + intros k' Hk'. rewrite Hd4.
      * apply list_lookup_insert_ne. intros ->. apply Hk'.
        apply list_elem_of_fmap. exists (k', s). split; [done|].
        eapply list_elem_of_lookup_2, Hks.
      * intros Hin. apply Hk'. rewrite Hperm, fmap_cons. by right.
    + intros x Hx. apply elem_of_cons in Hx as [->|Hx]; [|by apply Hd5].
      simpl. rewrite Hd4; [|done].
      apply list_lookup_insert_eq. eapply Hlt, list_elem_of_lookup_2, Hks.
    + eapply extends_trans; eauto.
    + intros x Hx. apply elem_of_cons in Hx as [->|Hx]; [|by apply Hd7].
      eapply (effective_extends (s, err)); eauto.
Qed.

Lemma elem_of_map {A B} (f : A -> B) (l : list A) (y : B) :
  y ∈ map f l <-> exists x, y = f x /\ x ∈ l.
Proof. exact (list_elem_of_fmap f l y). Qed.

Lemma positions_imap (stmts : list Stmt) :
  (imap (fun k s => (k, s)) stmts).*1 = seq 0 (length stmts).
Proof.
  rewrite fmap_imap.
  transitivity (imap (fun (j : nat) (_ : Stmt) => j) stmts); [reflexivity|].
  rewrite (imap_seq_0 stmts (fun j => j)). apply list_fmap_id.
Qed.

Lemma stmts_imap (stmts : list Stmt) :
  (imap (fun k s => (k, s)) stmts).*2 = stmts.
Proof.
  rewrite fmap_imap.
  transitivity (imap (const (fun s : Stmt => s)) stmts); [reflexivity|].
  rewrite imap_const. apply list_fmap_id.
Qed.

(** A batch: all its statements are issued, then each one is executed
    once; the combined result is [Ok] exactly when none of them failed. *)
Lemma combine_spec stmts c :
  exists done : list (Stmt * option Error),
    done.*1 ≡ₚ stmts
    /\ log (combine eng stmts c).1
       = log c ++ map Issued stmts ++ map (fun x => Executed x.1 x.2) done
    /\ (isOk (combine eng stmts c).2 = true <->
        forall x, x ∈ done -> x.2 = None)
    /\ extends (db c) (db (combine eng stmts c).1)
    /\ (forall x, x ∈ done -> effective x (db (combine eng stmts c).1)).
Proof.
  unfold combine.
  destruct (settle_spec (length stmts) (imap (fun k s => (k, s)) stmts)
              (issue stmts c) (replicate (length stmts) None))
    as (done & Hd1 & Hd2 & Hd3 & Hd4 & Hd5 & Hd6 & Hd7).
  { apply length_imap. }
  { rewrite positions_imap. apply NoDup_seq. }
  { intros k s Hin. apply elem_of_lookup_imap in Hin as (i & y & Heq & Hy).
    injection Heq as -> ->. rewrite length_replicate.
    eapply lookup_lt_Some, Hy. }
  destruct (settle eng (length stmts) (imap (fun k s => (k, s)) stmts)
              (issue stmts c) (replicate (length stmts) None))
    as [c2 slots] eqn:Hsettle.
  simpl in *.
  exists ((fun x => (x.1.2, x.2)) <$> done). split_and!.
  - transitivity ((done.*1).*2).
    + by rewrite <- !list_fmap_compose.
    + by rewrite Hd1, stmts_imap.
  - rewrite Hd2, <- app_assoc. do 2 f_equal.
    change (map ?f ?l) with (f <$> l).
    by rewrite <- list_fmap_compose.
  - rewrite combineResultList_isOk, forallb_forall. split.
    + intros Hall x Hx. apply list_elem_of_fmap in Hx as (y & -> & Hy).
      simpl. specialize (Hd5 y Hy).
      assert (Hin : resultOf y.2 ∈ filterDefined slots).
      { apply list_elem_of_omap. exists (Some (resultOf y.2)). split; [|done].
        eapply list_elem_of_lookup_2, Hd5. }
      apply list_elem_of_In, Hall in Hin. by destruct y.2.
    + intros Hall r Hr. apply list_elem_of_In, list_elem_of_omap in Hr
        as (o & Ho & ->).
      apply list_elem_of_lookup_1 in Ho as (k & Hk).
      assert (Hlt : k < length stmts).
      { apply lookup_lt_Some in Hk. by rewrite Hd3, length_replicate in Hk. }
      destruct (lookup_lt_is_Some_2 _ _ Hlt) as [s Hs].
      assert (Hp : (k, s) ∈ done.*1).
      { rewrite Hd1. by apply (elem_of_lookup_imap_2 (fun k s => (k, s))). }
      apply list_elem_of_fmap in Hp as (y & Hy1 & Hy).
      pose proof (Hd5 y Hy) as Hslot. rewrite <- Hy1 in Hslot. simpl in Hslot.
      rewrite Hk in Hslot. injection Hslot as ->.
      assert (Hnone : (y.1.2, y.2).2 = None).
      { apply Hall, list_elem_of_fmap. by exists y. }
      simpl in Hnone. by rewrite Hnone.
  - done.
  - intros x Hx. apply list_elem_of_fmap in Hx as (y & -> & Hy).
    by apply Hd7.
Qed.
End SqliteFacts.

(* ===================================================================== *)
(** * createEmptyDB *)
(* ===================================================================== *)

Section CreateEmptyDBFacts.
Import Sqlite SqliteDbFactory.
Variable eng : Engine.
Variable dbFilePath : string.

(** The runs of [createEmptyDB] on a store that opens: phase 1 is issued
    and settles; phase 2 is issued only if all of phase 1 succeeded. *)
Lemma createEmptyDB_shape store :
  open eng dbFilePath = Ok store ->
  exists done1 c1,
    done1.*1 ≡ₚ phase1
    /\ log c1 = map Issued phase1 ++ executed done1
    /\ extends store (db c1)
    /\ (forall x, x ∈ done1 -> effective x (db c1))
    /\ ((~ allSucceeded done1
         /\ exists e, createEmptyDB eng dbFilePath = mkRun (Some c1) (Err e))
        \/ (allSucceeded done1
            /\ exists done2 c2,
                done2.*1 ≡ₚ phase2
                /\ log c2 = log c1 ++ map Issued phase2 ++ executed done2
                /\ extends (db c1) (db c2)
                /\ (forall x, x ∈ done2 -> effective x (db c2))
                /\ ((~ allSucceeded done2
                     /\ exists e, createEmptyDB eng dbFilePath
                                  = mkRun (Some c2) (Err e))
                    \/ (allSucceeded done2
                        /\ createEmptyDB eng dbFilePath
                           = mkRun (Some c2) (Ok c2))))).
Proof.
  intros Hopen. unfold createEmptyDB. rewrite Hopen.
  destruct (combine_spec eng phase1 (mkConn store []))
    as (done1 & P1 & L1 & R1 & X1 & F1).
  destruct (combine eng phase1 (mkConn store [])) as [c1 r1].
  simpl in *. exists done1, c1. split_and!; try done.
  destruct r1 as [vs|e]; simpl in R1.
  - right. split; [unfold allSucceeded; by apply R1|].
    destruct (combine_spec eng phase2 c1)
      as (done2 & P2 & L2 & R2 & X2 & F2).
    destruct (combine eng phase2 c1) as [c2 r2].
    simpl in *. exists done2, c2. split_and!; try done.
    destruct r2 as [ws|e]; simpl in R2.
    + right. split; [unfold allSucceeded; by apply R2|done].
    + left. split; [|by exists e].
      intros Hall. apply R2 in Hall. discriminate.
  - left. split; [|by exists e].
    intros Hall. apply R1 in Hall. discriminate.
Qed.

(** ** Order of events in a log *)

Lemma precedes_absent e1 e2 l : e2 ∉ l -> precedes e1 e2 l.
Proof.
  intros Hnot l1 l2 ->. exfalso. apply Hnot.
  apply elem_of_app. right. by left.
Qed.

Lemma precedes_prefix e1 e2 l1 l2 :
  e1 ∈ l1 -> e2 ∉ l1 -> precedes e1 e2 (l1 ++ l2).
Proof.
  intros Hin Hnot p q Heq.
  apply app_eq_app in Heq as [l [[-> Hq]|[-> _]]].
  - destruct l as [|x l].
    + by rewrite app_nil_r in Hin.
    + injection Hq as <- _. exfalso. apply Hnot.
      apply elem_of_app. right. by left.
  - apply elem_of_app. by left.
Qed.

Lemma issued_in_issued s l : Issued s ∈ map Issued l <-> s ∈ l.
Proof.
  rewrite elem_of_map. split.
  - intros (x & Hx & Hin). by injection Hx as ->.
  - intros Hin. by exists s.
Qed.

Lemma issued_notin_executed s done : Issued s ∉ executed done.
Proof. intros (x & Hx & _)%elem_of_map. discriminate. Qed.

Lemma executed_notin_issued s r l : Executed s r ∉ map Issued l.
Proof. intros (x & Hx & _)%elem_of_map. discriminate. Qed.

Lemma executed_in_executed s r done :
  Executed s r ∈ executed done <-> (s, r) ∈ done.
Proof.
  unfold executed. rewrite elem_of_map. split.
  - intros ([s' r'] & Hx & Hin). simpl in Hx. by injection Hx as -> ->.
  - intros Hin. by exists (s, r).
Qed.

Lemma done_stmt (done : list (Stmt * option Error)) stmts s r :
  done.*1 ≡ₚ stmts -> (s, r) ∈ done -> s ∈ stmts.
Proof.
  intros <- Hin. apply list_elem_of_fmap. by exists (s, r).
Qed.

Lemma stmt_done (done : list (Stmt * option Error)) stmts s :
  done.*1 ≡ₚ stmts -> s ∈ stmts -> exists r, (s, r) ∈ done.
Proof.
  intros <- ([s' r] & -> & Hin)%list_elem_of_fmap. by exists r.
Qed.

Lemma stmt_created done stmts t :
  done.*1 ≡ₚ stmts -> allSucceeded done -> CreateTable t ∈ stmts ->
  created t ∈ executed done.
Proof.
  intros Hp Hall Hin. destruct (stmt_done _ _ _ Hp Hin) as [r Hr].
  pose proof (Hall _ Hr) as Hnone. simpl in Hnone. subst r.
  by apply executed_in_executed.
Qed.
End CreateEmptyDBFacts.

(* ===================================================================== *)
(** * Theorems: createEmptyDB *)
(* ===================================================================== *)

Section CreateEmptyDBTheorems.
Import Sqlite SqliteDbFactory.

Lemma all_tables (t : Table) :
  CreateTable t ∈ phase1 \/ CreateTable t ∈ phase2.
Proof.
  unfold phase1, phase2.
  destruct t; rewrite !elem_of_cons; auto 10.
Qed.

Lemma world_opened eng dbFilePath c :
  world (createEmptyDB eng dbFilePath) = Some c ->
  exists store, open eng dbFilePath = Ok store.
Proof.
  unfold createEmptyDB. destruct (open eng dbFilePath) as [store|m].
  - by exists store.
  - discriminate.
Qed.

(** C6. [createEmptyDB] is all-or-nothing for its caller: when the store
    does not open the call returns that error; when any table creation
    is executed with an error the call returns an error; and a handle is
    returned only when the store opened and each of the seven tables was
    created without error, so that all seven exist on the handle. *)
Theorem createEmptyDB_all_or_nothing (eng : Engine) (dbFilePath : string) :
  (forall message,
      open eng dbFilePath = Err message ->
      createEmptyDB eng dbFilePath = mkRun None (Err (JsError message)))
  /\ (forall c t e,
        world (createEmptyDB eng dbFilePath) = Some c ->
        Executed (CreateTable t) (Some e) ∈ log c ->
        isOk (result (createEmptyDB eng dbFilePath)) = false)
  /\ (forall h,
        result (createEmptyDB eng dbFilePath) = Ok h ->
        world (createEmptyDB eng dbFilePath) = Some h
        /\ (exists store, open eng dbFilePath = Ok store)
        /\ forall t : Table, created t ∈ log h /\ t ∈ tables (db h)).
Proof.
  split_and!.
  - intros message Hopen. unfold createEmptyDB. by rewrite Hopen.
  - intros c t e Hworld Hin.
    destruct (world_opened _ _ _ Hworld) as [store Hopen].
    destruct (createEmptyDB_shape eng dbFilePath store Hopen)
      as (done1 & c1 & P1 & L1 & X1 & F1 & [[N1 [e1 Heq]]|[A1 Hrest]]).
    { by rewrite Heq. }
    destruct Hrest
      as (done2 & c2 & P2 & L2 & X2 & F2 & [[N2 [e2 Heq]]|[A2 Heq]]).
    { by rewrite Heq. }
    exfalso. rewrite Heq in Hworld. injection Hworld as <-.
    rewrite L2, L1 in Hin.
    rewrite !elem_of_app in Hin.
    destruct Hin as [[Hin|Hin]|[Hin|Hin]].
    + by apply executed_notin_issued in Hin.
    + apply executed_in_executed, A1 in Hin. discriminate.
    + by apply executed_notin_issued in Hin.
    + apply executed_in_executed, A2 in Hin. discriminate.
  - intros h Hres.
    assert (Hopen : exists store, open eng dbFilePath = Ok store).
    { unfold createEmptyDB in Hres.
      destruct (open eng dbFilePath) as [store|m]; [by exists store|].
      discriminate. }
    destruct Hopen as [store Hopen].
    destruct (createEmptyDB_shape eng dbFilePath store Hopen)
      as (done1 & c1 & P1 & L1 & X1 & F1 & [[N1 [e1 Heq]]|[A1 Hrest]]).
    { rewrite Heq in Hres. discriminate. }
    destruct Hrest
      as (done2 & c2 & P2 & L2 & X2 & F2 & [[N2 [e2 Heq]]|[A2 Heq]]).
    { rewrite Heq in Hres. discriminate. }
    rewrite Heq in Hres. injection Hres as <-.
    rewrite Heq. split_and!; [done|by exists store|].
    intros t. rewrite L2, L1.
    destruct (all_tables t) as [Hin|Hin].
    + pose proof (stmt_created _ _ _ P1 A1 Hin) as Hc.
      split.
      * rewrite !elem_of_app. auto.
      * apply executed_in_executed in Hc.
        apply X2. exact (F1 _ Hc).
    + pose proof (stmt_created _ _ _ P2 A2 Hin) as Hc.
      split.
      * rewrite !elem_of_app. auto.
      * apply executed_in_executed in Hc. exact (F2 _ Hc).
Qed.

Lemma createEmptyDB_all_or_nothing_witness :
  createEmptyDB Scenarios.cannotOpen ":memory:"
    = mkRun None (Err (JsError "SQLITE_CANTOPEN"))
  /\ isOk (result (createEmptyDB Scenarios.hierarchyFails ":memory:")) = false
  /\ (exists h,
        result (createEmptyDB Scenarios.fifoEngine ":memory:") = Ok h
        /\ forall t : Table, created t ∈ log h /\ t ∈ tables (db h)).
Proof.
  split_and!.
  - apply (createEmptyDB_all_or_nothing Scenarios.cannotOpen ":memory:").
    reflexivity.
  - destruct (world (createEmptyDB Scenarios.hierarchyFails ":memory:"))
      as [c|] eqn:Hworld; [|vm_compute in Hworld; discriminate].
    apply (proj1 (proj2 (createEmptyDB_all_or_nothing
                           Scenarios.hierarchyFails ":memory:"))
             c Hierarchy (JsError "SQLITE_ERROR") Hworld).
    vm_compute in Hworld. injection Hworld as <-. simpl.
    rewrite !elem_of_cons. auto 20.
  - destruct (result (createEmptyDB Scenarios.fifoEngine ":memory:"))
      as [h|e] eqn:Hres; [|vm_compute in Hres; discriminate].
    exists h. split; [reflexivity|].
    apply (proj2 (proj2 (createEmptyDB_all_or_nothing
                           Scenarios.fifoEngine ":memory:")) h Hres).
Defined.

(** ** The place of the foreign-key pragma *)

(** The pragma is issued in the phase-2 batch itself: on an engine where
    nothing fails and statements run in issue order, it has been issued
    before any phase-2 table is created; when one phase-2 creation fails
    it is executed all the same, and enforcement is on over a schema that
    lacks a table; and an engine that picks the last pending statement
    first executes it before every phase-2 creation. *)
Lemma pragma_not_after_phase2 :
  (exists c,
      world (createEmptyDB Scenarios.fifoEngine ":memory:") = Some c
      /\ ~ pragmaAfterSchema (log c))
  /\ (exists c,
        world (createEmptyDB Scenarios.hierarchyFails ":memory:") = Some c
        /\ foreign_keys (db c) = true
        /\ Hierarchy ∉ tables (db c))
  /\ (exists c,
        world (createEmptyDB Scenarios.lifoEngine ":memory:") = Some c
        /\ ~ precedes (created VaultNotes) (Executed (Run PRAGMA_FK) None)
                      (log c)).
Proof.
  split_and!.
  - eexists. split; [vm_compute; reflexivity|].
    intros [H _].
    assert (Hin : VaultNotes ∈ phase2Tables) by (by left).
    specialize (H VaultNotes Hin
      [Issued (CreateTable Vaults); Issued (CreateTable NoteProps);
       Issued (CreateTable Links);
       Executed (CreateTable Vaults) None;
       Executed (CreateTable NoteProps) None;
       Executed (CreateTable Links) None;
       Issued (CreateTable VaultNotes); Issued (CreateTable Hierarchy);
       Issued (CreateTable SchemaNotes); Issued (CreateTable NotePropsFts)]
      [Executed (CreateTable VaultNotes) None;
       Executed (CreateTable Hierarchy) None;
       Executed (CreateTable SchemaNotes) None;
       Executed (CreateTable NotePropsFts) None;
       Executed (Run PRAGMA_FK) None] eq_refl).
    rewrite !elem_of_cons, elem_of_nil in H.
    unfold created in H. intuition discriminate.
  - eexists. split; [vm_compute; reflexivity|]. split; [reflexivity|].
    simpl. rewrite !elem_of_cons, elem_of_nil. intuition discriminate.
  - eexists. split; [vm_compute; reflexivity|].
    intros H.
    specialize (H
      [Issued (CreateTable Vaults); Issued (CreateTable NoteProps);
       Issued (CreateTable Links);
       Executed (CreateTable Links) None;
       Executed (CreateTable NoteProps) None;
       Executed (CreateTable Vaults) None;
       Issued (CreateTable VaultNotes); Issued (CreateTable Hierarchy);
       Issued (CreateTable SchemaNotes); Issued (CreateTable NotePropsFts);
       Issued (Run PRAGMA_FK)]
      [Executed (CreateTable NotePropsFts) None;
       Executed (CreateTable SchemaNotes) None;
       Executed (CreateTable Hierarchy) None;
       Executed (CreateTable VaultNotes) None] eq_refl).
    rewrite !elem_of_cons, elem_of_nil in H.
    unfold created in H. intuition discriminate.
Qed.

Lemma done_unique (done : list (Stmt * option Error)) x y :
  NoDup done.*1 -> x ∈ done -> y ∈ done -> x.1 = y.1 -> x = y.
Proof.
  induction done as [|z done IH]; intros Hnd Hx Hy Heq.
  - by apply elem_of_nil in Hx.
  - rewrite fmap_cons in Hnd. apply NoDup_cons in Hnd as [Hz Hnd].
    apply elem_of_cons in Hx as [->|Hx]; apply elem_of_cons in Hy as [->|Hy].
    + done.
    + exfalso. apply Hz. rewrite Heq. apply list_elem_of_fmap. by exists y.
    + exfalso. apply Hz. rewrite <- Heq. apply list_elem_of_fmap. by exists x.
    + by apply IH.
Qed.

Lemma phase1_NoDup : NoDup phase1.
Proof.
  unfold phase1. rewrite !NoDup_cons, !elem_of_cons, !elem_of_nil.
  split_and!; try (intuition discriminate). apply NoDup_nil_2.
Qed.

(** C1 (amended).  On every engine and for every order in which it runs
    pending statements, the log of [createEmptyDB] has one of two shapes:
    the three phase-1 statements are issued and executed and, one of them
    having failed, nothing more happens; or all three phase-1 tables were
    created, and then the five phase-2 statements are issued in one go,
    the pragma last of them, before any of the five is executed.  So the
    pragma is issued exactly when all three phase-1 tables have been
    created; no phase-2 statement, the pragma included, is issued before
    each phase-1 table has been created, and no phase-2 table is created
    before then; the pragma is issued after the four phase-2 creation
    statements have been issued; and it does not wait for them: no
    phase-2 table is created, or fails to be, before the pragma has been
    issued. *)
Theorem pragma_issued_last_in_phase2 (eng : Engine) (dbFilePath : string)
    (c : Conn) :
  world (createEmptyDB eng dbFilePath) = Some c ->
  (exists done1,
      done1.*1 ≡ₚ phase1
      /\ ((~ allSucceeded done1
           /\ log c = map Issued phase1 ++ executed done1)
          \/ (allSucceeded done1
              /\ exists done2,
                   done2.*1 ≡ₚ phase2
                   /\ log c = map Issued phase1 ++ executed done1
                              ++ map Issued phase2 ++ executed done2)))
  /\ (pragmaIssued ∈ log c <->
      forall t1, t1 ∈ phase1Tables -> created t1 ∈ log c)
  /\ (forall t1 s, t1 ∈ phase1Tables -> s ∈ phase2 ->
        precedes (created t1) (Issued s) (log c))
  /\ (forall t1 t2 r, t1 ∈ phase1Tables -> t2 ∈ phase2Tables ->
        precedes (created t1) (Executed (CreateTable t2) r) (log c))
  /\ (forall t2, t2 ∈ phase2Tables ->
        precedes (Issued (CreateTable t2)) pragmaIssued (log c))
  /\ (forall t2 r, t2 ∈ phase2Tables ->
        precedes pragmaIssued (Executed (CreateTable t2) r) (log c)).
Proof.
  intros Hworld.
  destruct (world_opened _ _ _ Hworld) as [store Hopen].
  assert (Hp1 : forall t1, t1 ∈ phase1Tables -> CreateTable t1 ∈ phase1).
  { intros t1. unfold phase1Tables, phase1.
    rewrite !elem_of_cons, !elem_of_nil. intuition (subst; auto). }
  assert (Hp1' : forall s, s ∈ phase1 ->
                   exists t1, t1 ∈ phase1Tables /\ s = CreateTable t1).
  { intros s. unfold phase1Tables, phase1.
    rewrite !elem_of_cons, !elem_of_nil.
    intros [->|[->|[->|[]]]]; eexists; (split; [|reflexivity]);
      rewrite !elem_of_cons; auto. }
  assert (Hp2 : forall t2, t2 ∈ phase2Tables -> CreateTable t2 ∈ phase2).
  { intros t2. unfold phase2Tables, phase2.
    rewrite !elem_of_cons, !elem_of_nil. intuition (subst; auto 10). }
  assert (Hpragma : Run PRAGMA_FK ∈ phase2).
  { unfold phase2. rewrite !elem_of_cons. auto 10. }
  assert (Hdisj : forall s, s ∈ phase2 -> s ∉ phase1).
  { intros s. unfold phase1, phase2.
    rewrite !elem_of_cons, !elem_of_nil.
    intuition (subst; discriminate). }
  destruct (createEmptyDB_shape eng dbFilePath store Hopen)
    as (done1 & c1 & P1 & L1 & X1 & F1 & Hcases).
  assert (Hno_issue : forall s, s ∈ phase2 -> Issued s ∉ log c1).
  { intros s Hs. rewrite L1, elem_of_app. intros [Hin|Hin].
    - apply issued_in_issued in Hin. by apply (Hdisj s).
    - by apply issued_notin_executed in Hin. }
  assert (Hno_exec : forall s r, s ∈ phase2 -> Executed s r ∉ log c1).
  { intros s r Hs. rewrite L1, elem_of_app. intros [Hin|Hin].
    - by apply executed_notin_issued in Hin.
    - apply executed_in_executed in Hin.
      apply (Hdisj s Hs). eapply done_stmt; eauto. }
  assert (Hnd : NoDup done1.*1) by (rewrite P1; apply phase1_NoDup).
  destruct Hcases as [[N1 [e1 Heq]]|[A1 Hrest]].
  { rewrite Heq in Hworld. injection Hworld as <-. split_and!.
    - exists done1. split; [done|]. by left.
    - split.
      + intros Hin. exfalso. revert Hin. by apply Hno_issue.
      + intros Hall. exfalso. apply N1. intros x Hx.
        assert (Hs : x.1 ∈ phase1).
        { rewrite <- P1. apply list_elem_of_fmap. by exists x. }
        destruct (Hp1' _ Hs) as (t1 & Ht1 & Hx1).
        specialize (Hall t1 Ht1). rewrite L1, elem_of_app in Hall.
        destruct Hall as [Hin|Hin];
          [by apply executed_notin_issued in Hin|].
        apply executed_in_executed in Hin.
        assert (Hxy : x = (CreateTable t1, None)).
        { apply (done_unique done1); auto. }
        by rewrite Hxy.
    - intros t1 s _ Hs. apply precedes_absent. by apply Hno_issue.
    - intros t1 t2 r _ Ht2. apply precedes_absent.
      by apply Hno_exec, Hp2.
    - intros t2 _. apply precedes_absent. by apply Hno_issue.
    - intros t2 r Ht2. apply precedes_absent. by apply Hno_exec, Hp2. }
  assert (Hcreated : forall t1, t1 ∈ phase1Tables -> created t1 ∈ log c1).
  { intros t1 Ht1. rewrite L1, elem_of_app. right.
    eapply stmt_created; eauto. }
  assert (Hlog : exists done2,
             done2.*1 ≡ₚ phase2
             /\ log c = log c1 ++ map Issued phase2 ++ executed done2).
  { destruct Hrest
      as (done2 & c2 & P2 & L2 & X2 & F2 & [[N2 [e2 Heq]]|[A2 Heq]]);
      rewrite Heq in Hworld; injection Hworld as <-; by exists done2. }
  destruct Hlog as (done2 & P2 & Hlog). split_and!.
  - exists done1. split; [done|]. right. split; [done|].
    exists done2. split; [done|]. by rewrite Hlog, L1, <- app_assoc.
  - rewrite Hlog. split.
    + intros _ t1 Ht1. apply elem_of_app. left. by apply Hcreated.
    + intros _. rewrite !elem_of_app. right. left.
      by apply issued_in_issued.
  - rewrite Hlog. intros t1 s Ht1 Hs. apply precedes_prefix; auto.
  - rewrite Hlog. intros t1 t2 r Ht1 Ht2. apply precedes_prefix; auto.
  - rewrite Hlog. intros t2 Ht2.
    change (map Issued phase2 ++ executed done2)
      with (map Issued [CreateTable VaultNotes; CreateTable Hierarchy;
                        CreateTable SchemaNotes; CreateTable NotePropsFts]
            ++ pragmaIssued :: executed done2).
    rewrite app_assoc.
    apply precedes_prefix.
    + apply elem_of_app. right. apply issued_in_issued.
      revert Ht2. unfold phase2Tables.
      rewrite !elem_of_cons, !elem_of_nil. intuition (subst; auto 10).
    + rewrite elem_of_app. intros [Hin|Hin].
      * revert Hin. by apply Hno_issue.
      * apply issued_in_issued in Hin. revert Hin.
        rewrite !elem_of_cons, !elem_of_nil. intuition discriminate.
  - rewrite Hlog. intros t2 r Ht2. rewrite app_assoc.
    apply precedes_prefix.
    + apply elem_of_app. right. by apply issued_in_issued.
    + rewrite elem_of_app. intros [Hin|Hin].
      * revert Hin. by apply Hno_exec, Hp2.
      * by apply executed_notin_issued in Hin.
Qed.

Lemma pragma_issued_last_in_phase2_witness :
  exists c,
    world (createEmptyDB Scenarios.lifoEngine ":memory:") = Some c
    /\ pragmaIssued ∈ log c
    /\ precedes (created Links) (Issued (CreateTable Hierarchy)) (log c)
    /\ precedes (created Vaults) (Executed (CreateTable VaultNotes) None)
                (log c)
    /\ precedes (Issued (CreateTable NotePropsFts)) pragmaIssued (log c)
    /\ precedes pragmaIssued (Executed (CreateTable VaultNotes) None) (log c).
Proof.
  destruct (world (createEmptyDB Scenarios.lifoEngine ":memory:"))
    as [c|] eqn:Hworld; [|vm_compute in Hworld; discriminate].
  exists c. split; [reflexivity|].
  destruct (pragma_issued_last_in_phase2
              Scenarios.lifoEngine ":memory:" c Hworld)
    as (_ & _ & H1 & H2 & H3 & H4).
  split_and!.
  - vm_compute in Hworld. injection Hworld as <-. simpl.
    unfold pragmaIssued. rewrite !elem_of_cons. auto 20.
  - apply H1; unfold phase1Tables, phase2; rewrite !elem_of_cons; auto 10.
  - apply H2; unfold phase1Tables, phase2Tables; rewrite !elem_of_cons;
      auto 10.
  - apply H3; unfold phase2Tables; rewrite !elem_of_cons; auto 10.
  - apply H4; unfold phase2Tables; rewrite !elem_of_cons; auto 10.
Defined.
End CreateEmptyDBTheorems.

(* ===================================================================== *)
(** * Theorems: createInitializedDB *)
(* ===================================================================== *)

Section CreateInitializedDBTheorems.
Import Sqlite SqliteDbFactory.

Lemma createEmptyDB_ok eng dbFilePath h :
  result (createEmptyDB eng dbFilePath) = Ok h ->
  world (createEmptyDB eng dbFilePath) = Some h
  /\ exists store, open eng dbFilePath = Ok store /\ rows (db h) = rows store.
Proof.
  intros Hres.
  assert (Hopen : exists store, open eng dbFilePath = Ok store).
  { unfold createEmptyDB in Hres.
    destruct (open eng dbFilePath) as [store|m]; [by exists store|].
    discriminate. }
  destruct Hopen as [store Hopen].
  destruct (createEmptyDB_shape eng dbFilePath store Hopen)
    as (done1 & c1 & P1 & L1 & X1 & F1 & [[N1 [e1 Heq]]|[A1 Hrest]]).
  { rewrite Heq in Hres. discriminate. }
  destruct Hrest
    as (done2 & c2 & P2 & L2 & X2 & F2 & [[N2 [e2 Heq]]|[A2 Heq]]).
  { rewrite Heq in Hres. discriminate. }
  rewrite Heq in Hres. injection Hres as <-. rewrite Heq.
  split; [done|]. exists store. split; [done|].
  destruct X1 as (_ & _ & R1), X2 as (_ & _ & R2). congruence.
Qed.

Lemma promiseAll_fulfilled {A} (vs : list A) :
  Neverthrow.promiseAll (map Fulfilled vs) = Fulfilled vs.
Proof. induction vs as [|v vs IH]; simpl; [done|]. by rewrite IH. Qed.

(** When no listing rejects and the note parser never throws, every
    vault's task resolves to an [Ok], whatever the listing answered and
    whatever the parser returned. *)
Lemma ingestVaults_all_ok imp wsRoot fileStore vaults :
  (forall v, v ∈ vaults ->
     exists resp, readDir fileStore (URI_parse (vault2Path imp v wsRoot))
                          ["*.md"] = Fulfilled resp) ->
  (forall files v c vaultPath,
     exists c' parsed,
       parseAllNoteFilesForSqlite imp files v c vaultPath
       = (c', Normal parsed)) ->
  forall c, exists parsed,
    (ingestVaults imp wsRoot fileStore vaults c).2
    = map (fun p => Fulfilled (Ok p)) parsed.
Proof.
  intros Hlist Hparse.
  induction vaults as [|v vaults IH]; intros c; simpl.
  - by exists [].
  - unfold ingestVault.
    destruct (Hlist v) as [resp ->]; [by left|].
    destruct (Hparse (resp_data resp) v c (vault2Path imp v wsRoot))
      as (c1 & parsed & ->).
    destruct IH with (c := c1) as [ps Hps].
    { intros v' Hv'. apply Hlist. by right. }
    destruct (ingestVaults imp wsRoot fileStore vaults c1) as [c2 qs].
    simpl in *. subst qs. by exists (parsed :: ps).
Qed.

Lemma combine_all_ok {T} (vs : list T) :
  exists ws,
    Neverthrow.combine (map (fun p => Fulfilled (Ok p : Result T Error)) vs)
    = Fulfilled (Ok ws).
Proof.
  unfold Neverthrow.combine.
  rewrite <- (map_map (@Ok T Error) Fulfilled), promiseAll_fulfilled.
  pose proof (combineResultList_isOk (map (@Ok T Error) vs)) as H.
  assert (Hall : forallb isOk (map (@Ok T Error) vs) = true).
  { clear H. induction vs as [|v vs IH]; [done|exact IH]. }
  rewrite Hall in H.
  destruct (Neverthrow.combineResultList (map (@Ok T Error) vs)) as [ws|e];
    [by exists ws|discriminate].
Qed.

(** [createInitializedDB] hands out the handle whenever the empty
    database was built, no listing rejected and the note parser did not
    throw: an error response of the listing and an error returned by the
    parser are never looked at. *)
Lemma createInitializedDB_ignores_returned_errors
    imp eng wsRoot vaults fileStore dbFilePath h :
  result (createEmptyDB eng dbFilePath) = Ok h ->
  (forall v, v ∈ vaults ->
     exists resp, readDir fileStore (URI_parse (vault2Path imp v wsRoot))
                          ["*.md"] = Fulfilled resp) ->
  (forall files v c vaultPath,
     exists c' parsed,
       parseAllNoteFilesForSqlite imp files v c vaultPath
       = (c', Normal parsed)) ->
  exists h',
    result (createInitializedDB imp eng wsRoot vaults fileStore dbFilePath)
    = Fulfilled (Ok h').
Proof.
  intros Hres Hlist Hparse. unfold createInitializedDB. rewrite Hres.
  destruct (ingestVaults_all_ok imp wsRoot fileStore vaults Hlist Hparse h)
    as [parsed Hps].
  destruct (ingestVaults imp wsRoot fileStore vaults h) as [c' ps].
  simpl in Hps. subst ps.
  destruct (combine_all_ok parsed) as [ws ->]. by exists c'.
Qed.

(** C3 (the code departs from it).  With one vault whose listing succeeds
    and whose parse step returns an error, [createInitializedDB] returns
    the handle; and with one vault whose listing answers an error
    response, it returns the handle as well. *)
Theorem createInitializedDB_returns_handle_on_failure :
  (exists h,
      result (createInitializedDB Scenarios.noteParserFails
                Scenarios.fifoEngine "/ws" [Scenarios.vault1]
                Scenarios.oneFilePerVault ":memory:")
      = Fulfilled (Ok h))
  /\ (exists h,
        result (createInitializedDB Scenarios.noteParserAccepts
                  Scenarios.fifoEngine "/ws" [Scenarios.vault1]
                  Scenarios.unreadable ":memory:")
        = Fulfilled (Ok h)).
Proof.
  split; eexists; vm_compute; reflexivity.
Qed.

(** ** Vaults without note files, on the parser of the specification *)

Section NoFiles.
Variable vault2Path_ : DVault -> string -> string.
Variable getName_ : DVault -> string.
Variable parseNote : DVault -> string -> Result (list Row) Error.
Variable onUndefined :
  DVault -> Conn -> Conn * Completion (Result unit Error) Error.
Variable parse_ : string -> list string -> DVault -> SchemaParseResp.

Local Abbreviation imp :=
  (specImports vault2Path_ getName_ parseNote onUndefined parse_).

Lemma ingestVaults_no_files wsRoot fileStore vaults :
  (forall v, v ∈ vaults ->
     readDir fileStore (URI_parse (vault2Path_ v wsRoot)) ["*.md"]
     = Fulfilled (RespData [])) ->
  forall c,
    ingestVaults imp wsRoot fileStore vaults c
    = (c, map (fun _ => Fulfilled (Ok (Ok tt))) vaults).
Proof.
  intros Hlist. induction vaults as [|v vaults IH]; intros c; simpl.
  - done.
  - unfold ingestVault. simpl. rewrite Hlist; [|by left]. simpl.
    rewrite IH; [|intros v' Hv'; apply Hlist; by right].
    by destruct c.
Qed.

(** C7.  When the listing of every vault answers zero note files, the
    ingestion adds neither a failure nor a row: [createInitializedDB]
    ends exactly as [createEmptyDB] does, so it succeeds whenever the
    empty database could be built, and the rows of the handle are
    those that the store held when it was opened (none on a fresh
    store). *)
Theorem createInitializedDB_no_files
    (eng : Engine) (wsRoot : string) (vaults : list DVault)
    (fileStore : IFileStore) (dbFilePath : string) :
  (forall v, v ∈ vaults ->
     readDir fileStore (URI_parse (vault2Path_ v wsRoot)) ["*.md"]
     = Fulfilled (RespData [])) ->
  createInitializedDB imp eng wsRoot vaults fileStore dbFilePath
  = mkRun (world (createEmptyDB eng dbFilePath))
          (Fulfilled (result (createEmptyDB eng dbFilePath)))
  /\ (forall h,
        result (createEmptyDB eng dbFilePath) = Ok h ->
        result (createInitializedDB imp eng wsRoot vaults fileStore
                                    dbFilePath) = Fulfilled (Ok h)
        /\ exists store,
             open eng dbFilePath = Ok store
             /\ rows (db h) = rows store).
Proof.
  intros Hlist.
  assert (Heq : createInitializedDB imp eng wsRoot vaults fileStore
                                    dbFilePath
                = mkRun (world (createEmptyDB eng dbFilePath))
                        (Fulfilled (result (createEmptyDB eng dbFilePath)))).
  { unfold createInitializedDB.
    destruct (result (createEmptyDB eng dbFilePath)) as [h|e] eqn:Hres;
      [|done].
    rewrite (ingestVaults_no_files wsRoot fileStore vaults Hlist h).
    destruct (combine_all_ok (T := Result unit Error)
                (map (fun _ : DVault => Ok tt) vaults)) as [ws Hws].
    rewrite map_map in Hws. rewrite Hws.
    by destruct (createEmptyDB_ok eng dbFilePath h Hres) as [-> _]. }
  split; [exact Heq|].
  intros h Hres. rewrite Heq. simpl. split; [by rewrite Hres|].
  by destruct (createEmptyDB_ok eng dbFilePath h Hres) as [_ Hstore].
Qed.
End NoFiles.

Lemma createInitializedDB_no_files_witness :
  exists h,
    result (createInitializedDB
              (specImports Scenarios.joinPath Scenarios.displayName
                 (fun _ f => Ok [(NoteProps, f)])
                 (fun _ c => (c, Throw (JsError "files is undefined")))
                 Scenarios.parsesFoo)
              Scenarios.fifoEngine "/ws"
              [Scenarios.vault1; Scenarios.vault2]
              (mkFileStore (fun _ _ => Fulfilled (RespData [])))
              ":memory:") = Fulfilled (Ok h)
    /\ rows (db h) = [].
Proof.
  destruct (result (createEmptyDB Scenarios.fifoEngine ":memory:"))
    as [h|e] eqn:Hres; [|vm_compute in Hres; discriminate].
  exists h.
  destruct (createInitializedDB_no_files
              Scenarios.joinPath Scenarios.displayName
              (fun _ f => Ok [(NoteProps, f)])
              (fun _ c => (c, Throw (JsError "files is undefined")))
              Scenarios.parsesFoo
              Scenarios.fifoEngine "/ws"
              [Scenarios.vault1; Scenarios.vault2]
              (mkFileStore (fun _ _ => Fulfilled (RespData [])))
              ":memory:") as [_ H].
  { intros v _. reflexivity. }
  destruct (H h Hres) as [Hok (store & Hopen & Hrows)].
  split; [exact Hok|].
  rewrite Hrows. simpl in Hopen. by injection Hopen as <-.
Defined.
End CreateInitializedDBTheorems.

(* ===================================================================== *)
(** * Theorems: initSchema *)
(* ===================================================================== *)

Section InitSchemaTheorems.
Import SqliteDbFactory.

(** C2 (the code departs from it).  [initSchema] tests [errors.length]
    before the callback that fills [errors] has had its turn: for every
    vault set it returns [Ok] with the dictionary, still empty, and never
    a composite error.  On a vault whose schema file fails to parse the
    parse error reaches [errors] only after the return. *)
Theorem initSchema_never_returns_error :
  (forall imp vaults wsRoot fileStore,
      returned (initSchema imp vaults wsRoot fileStore) = Ok SchemaDictRef
      /\ schemaDict (heapAtReturn (initSchema imp vaults wsRoot fileStore)) = ∅)
  /\ returned (initSchema Scenarios.schemaParserFails [Scenarios.vault1]
                          "/ws" Scenarios.oneFilePerVault)
     = Ok SchemaDictRef
  /\ errorsVar (heapSettled
                  (initSchema Scenarios.schemaParserFails [Scenarios.vault1]
                              "/ws" Scenarios.oneFilePerVault))
     = [Scenarios.badYaml].
Proof.
  split_and!; [|reflexivity|reflexivity].
  intros imp vaults wsRoot fileStore. split; reflexivity.
Qed.

Lemma mergeSchemas_lookup ss : forall d k,
  mergeSchemas ss d !! k
  = match lastWithRoot k ss with
    | Some s => Some s
    | None => d !! k
    end.
Proof.
  unfold mergeSchemas, lastWithRoot.
  induction ss as [|s ss IH]; intros d k; simpl; [done|].
  rewrite IH. rewrite filter_cons.
  destruct (decide (id (root s) = k)) as [<-|Hne].
  - rewrite last_cons.
    destruct (last (filter _ ss)); [done|].
    by rewrite lookup_insert_eq.
  - destruct (last (filter _ ss)); [done|].
    by rewrite lookup_insert_ne.
Qed.

Lemma discoverVault_listed imp wsRoot fileStore vaults :
  allListed imp wsRoot fileStore vaults ->
  exists res,
    map (discoverVault imp wsRoot fileStore) vaults = map Ok res
    /\ flat_map schemas res
       = flat_map (parsedOf imp wsRoot fileStore) vaults.
Proof.
  induction vaults as [|v vaults IH]; intros Hall.
  - by exists [].
  - destruct IH as (res & Hres & Hflat).
    { intros v' Hv'. apply Hall. by right. }
    destruct (Hall v) as [files Hfiles]; [by left|].
    exists (SchemaParser_parse imp wsRoot files v :: res). simpl.
    unfold discoverVault at 1, parsedOf at 1. rewrite Hfiles. simpl.
    by rewrite Hres, Hflat.
Qed.

(** C5.  The callback of [initSchema] writes every parsed module into
    the one dictionary under its root id, a later module replacing an
    earlier one with the same root id: afterwards the entry for [k] is
    the last parsed module with root id [k], or what was there before
    when no parsed module has that root id.  So, when the listings of all
    vaults were answered, the dictionary that [initSchema] handed out
    holds, once the callback has run, for each root id the last module
    with that id in vault order, and nothing else. *)
Theorem initSchema_last_write_wins :
  (forall (res : list SchemaParseResp) (h : Heap) (k : string),
      schemaDict (initSchemaCallback res h) !! k
      = match lastWithRoot k (flat_map schemas res) with
        | Some s => Some s
        | None => schemaDict h !! k
        end)
  /\ (forall imp vaults wsRoot fileStore (k : string),
        allListed imp wsRoot fileStore vaults ->
        returned (initSchema imp vaults wsRoot fileStore) = Ok SchemaDictRef
        /\ schemaDict (heapSettled (initSchema imp vaults wsRoot fileStore))
             !! k
           = lastWithRoot k
               (flat_map (parsedOf imp wsRoot fileStore) vaults)).
Proof.
  split.
  - intros res h k. unfold initSchemaCallback. simpl.
    rewrite filterDefined_flatMap_Some. apply mergeSchemas_lookup.
  - intros imp vaults wsRoot fileStore k Hall. split; [reflexivity|].
    destruct (discoverVault_listed imp wsRoot fileStore vaults Hall)
      as (res & Hres & Hflat).
    unfold initSchema, enqueue, runJobs. simpl.
    unfold initSchemaJob. rewrite Hres, combineWithAllErrors_all_ok.
    unfold initSchemaCallback. simpl.
    rewrite filterDefined_flatMap_Some, mergeSchemas_lookup, Hflat.
    rewrite lookup_empty. by destruct (lastWithRoot _ _).
Qed.

Lemma initSchema_last_write_wins_witness :
  schemaDict (heapSettled
                (initSchema Scenarios.noteParserAccepts
                            [Scenarios.vault1; Scenarios.vault2] "/ws"
                            Scenarios.oneFilePerVault)) !! "foo"
  = Some (Scenarios.goodSchema Scenarios.vault2 "*.schema.yml").
Proof.
  destruct (proj2 initSchema_last_write_wins
              Scenarios.noteParserAccepts
              [Scenarios.vault1; Scenarios.vault2] "/ws"
              Scenarios.oneFilePerVault "foo") as [_ ->].
  - intros v _. by exists ["*.schema.yml"].
  - reflexivity.
Defined.
End InitSchemaTheorems.

(* ===================================================================== *)
(** * Theorems: readAllSchema *)
(* ===================================================================== *)

Section ReadAllSchemaTheorems.
Import SqliteDbFactory.

Lemma readVaultSchemas_fulfilled imp wsRoot fileStore vaults :
  noneRejects imp wsRoot fileStore vaults ->
  exists responses,
    map (readVaultSchemas imp wsRoot fileStore) vaults
    = map Fulfilled responses
    /\ forall v, v ∈ vaults ->
         exists r, r ∈ responses
                   /\ readVaultSchemas imp wsRoot fileStore v = Fulfilled r.
Proof.
  induction vaults as [|v vaults IH]; intros Hall.
  - exists []. split; [done|]. intros v Hv. by apply elem_of_nil in Hv.
  - destruct IH as (rs & Hrs & Hin).
    { intros v' Hv'. apply Hall. by right. }
    destruct (Hall v) as [resp Hresp]; [by left|].
    assert (Hr : exists r, readVaultSchemas imp wsRoot fileStore v = Fulfilled r).
    { unfold readVaultSchemas. rewrite Hresp.
      destruct resp as [files|e]; [|by eexists].
      destruct (length files =? 0); by eexists. }
    destruct Hr as [r Hr]. exists (r :: rs). split.
    + simpl. by rewrite Hr, Hrs.
    + intros v' [->|Hv']%elem_of_cons.
      * exists r. split; [by left|done].
      * destruct (Hin v' Hv') as (r' & Hr' & Heq).
        exists r'. split; [by right|done].
Qed.

Lemma elem_of_flatMap {A B} (f : A -> option (list B)) (xs : list A) x ys y :
  x ∈ xs -> f x = Some ys -> y ∈ ys -> y ∈ filterDefined (flatMap f xs).
Proof.
  intros Hx Hf Hy. unfold filterDefined, flatMap.
  apply list_elem_of_omap. exists (Some y). split; [|done].
  apply list_elem_of_In, in_flat_map. exists x. split.
  - by apply list_elem_of_In.
  - rewrite Hf. apply in_map. by apply list_elem_of_In.
Qed.

(** C4.  Suppose that no listing rejects and that the listing of vault [a]
    answers zero schema files.  Then [readAllSchema] answers a response
    whose error is a composite; among its members is the composite that
    [a] contributed, holding one error of status NO_SCHEMA_FOUND and
    severity MINOR whose message names [a]; and the data holds every
    module that the parser read in any other vault [b] whose listing
    answered files. *)
Theorem readAllSchema_no_schema_found
    (imp : Imports) (vaults : list DVault) (wsRoot : string)
    (fileStore : IFileStore) (a : DVault) :
  noneRejects imp wsRoot fileStore vaults ->
  a ∈ vaults ->
  readDir fileStore (URI_file (vault2Path imp a wsRoot)) ["*.schema.yml"]
  = Fulfilled (RespData []) ->
  exists errs modules,
    readAllSchema imp vaults wsRoot fileStore
    = Fulfilled (mkResp (Some modules) (Some (DendronCompositeError errs)))
    /\ DendronCompositeError
         [DendronError ("Unable to get schemas for vault " +:+ getName imp a)
                       (Some NO_SCHEMA_FOUND) (Some MINOR) None] ∈ errs
    /\ forall b files m,
         b ∈ vaults ->
         readDir fileStore (URI_file (vault2Path imp b wsRoot))
                 ["*.schema.yml"] = Fulfilled (RespData files) ->
         files <> [] ->
         m ∈ schemas (SchemaParser_parse imp wsRoot files b) ->
         m ∈ modules.
Proof.
  intros Hall Ha Hempty.
  destruct (readVaultSchemas_fulfilled imp wsRoot fileStore vaults Hall)
    as (responses & Hmap & Hin).
  unfold readAllSchema. rewrite Hmap, promiseAll_fulfilled.
  match goal with
  | |- context [0 <? length ?e] => set (errs := e)
  end.
  assert (Herr : DendronCompositeError
            [DendronError ("Unable to get schemas for vault " +:+ getName imp a)
                          (Some NO_SCHEMA_FOUND) (Some MINOR) None] ∈ errs).
  { destruct (Hin a Ha) as (r & Hr & Heq).
    unfold readVaultSchemas in Heq. rewrite Hempty in Heq. simpl in Heq.
    injection Heq as <-.
    eapply elem_of_flatMap; [exact Hr|reflexivity|by left]. }
  exists errs, (filterDefined (flatMap data responses)). split_and!.
  - destruct errs as [|e errs']; [by apply elem_of_nil in Herr|done].
  - exact Herr.
  - intros b files m Hb Hfiles Hne Hm.
    destruct (Hin b Hb) as (r & Hr & Heq).
    unfold readVaultSchemas in Heq. rewrite Hfiles in Heq.
    destruct files as [|f files]; [done|]. simpl in Heq.
    rewrite map_id in Heq. injection Heq as <-.
    eapply elem_of_flatMap; [exact Hr|reflexivity|exact Hm].
Qed.

Lemma readAllSchema_no_schema_found_witness :
  exists errs modules,
    readAllSchema Scenarios.noteParserAccepts
                  [Scenarios.vault1; Scenarios.vault2] "/ws"
                  Scenarios.emptyVault1
    = Fulfilled (mkResp (Some modules) (Some (DendronCompositeError errs)))
    /\ DendronCompositeError
         [DendronError "Unable to get schemas for vault vault1"
                       (Some NO_SCHEMA_FOUND) (Some MINOR) None] ∈ errs
    /\ Scenarios.goodSchema Scenarios.vault2 "foo.schema.yml" ∈ modules.
Proof.
  destruct (readAllSchema_no_schema_found Scenarios.noteParserAccepts
              [Scenarios.vault1; Scenarios.vault2] "/ws"
              Scenarios.emptyVault1 Scenarios.vault1)
    as (errs & modules & Heq & Herr & Hdata).
  - intros v _. by eexists.
  - by left.
  - reflexivity.
  - exists errs, modules. split_and!; [exact Heq|exact Herr|].
    apply (Hdata Scenarios.vault2 ["foo.schema.yml"]).
    + right. by left.
    + reflexivity.
    + discriminate.
    + by left.
Defined.
End ReadAllSchemaTheorems.

(* ===================================================================== *)
(** * Theorems: the auto-completion registry *)
(* ===================================================================== *)

Section RegistryTheorems.
Import UIAutoCompletableCmds.
Context {Cmd : Type}.

Lemma registerIfNotRegistered_lookup (i : string) (c : Cmd) m k :
  registerIfNotRegistered i c m !! k
  = match m !! k with
    | Some c' => Some c'
    | None => if String.eqb i k then Some c else None
    end.
Proof.
  unfold registerIfNotRegistered.
  destruct (String.eqb_spec i k) as [->|Hne].
  - destruct (m !! k) as [c'|] eqn:Hk; rewrite ?Hk; [done|].
    by rewrite lookup_insert_eq.
  - destruct (m !! i) as [c'|] eqn:Hi; [by destruct (m !! k)|].
    rewrite lookup_insert_ne; [|done]. by destruct (m !! k).
Qed.

Lemma registerAll_lookup (calls : list (string * Cmd)) : forall m k,
  registerAll calls m !! k
  = match m !! k with
    | Some c => Some c
    | None => firstRegistered k calls
    end.
Proof.
  unfold registerAll.
  induction calls as [|[i c] calls IH]; intros m k; simpl.
  - by destruct (m !! k).
  - rewrite IH, registerIfNotRegistered_lookup.
    destruct (m !! k); [done|]. by destruct (String.eqb i k).
Qed.

(** C8.  The registry keeps the first binding of an id: a call of
    [registerIfNotRegistered] for an id that is bound leaves the registry
    as it was; after any further calls [getCmd] still returns the instance
    bound at first; starting from the empty registry, [getCmd] returns the
    instance of the first call made for the id; and for an id that no call
    was made for it throws the invalid-state error. *)
Theorem registry_first_write_wins (id_ : string) :
  (forall (m : gmap string Cmd) (first cmd : Cmd),
      m !! id_ = Some first ->
      registerIfNotRegistered id_ cmd m = m)
  /\ (forall (m : gmap string Cmd) (first : Cmd) (later : list (string * Cmd)),
        getCmd id_ m = Normal first ->
        getCmd id_ (registerAll later m) = Normal first)
  /\ (forall calls : list (string * Cmd),
        getCmd id_ (registerAll calls _UI_AUTOCOMPLETE_COMMANDS)
        = match firstRegistered id_ calls with
          | Some first => Normal first
          | None =>
              Throw (InvalidStateError
                       ("UI command instance does not exist for '"
                        +:+ id_ +:+ "'"))
          end).
Proof.
  split_and!.
  - intros m first cmd Hm. unfold registerIfNotRegistered. by rewrite Hm.
  - intros m first later. unfold getCmd.
    rewrite registerAll_lookup.
    destruct (m !! id_) as [c|]; [done|discriminate].
  - intros calls. unfold getCmd, _UI_AUTOCOMPLETE_COMMANDS.
    rewrite registerAll_lookup, lookup_empty.
    by destruct (firstRegistered id_ calls).
Qed.
End RegistryTheorems.

Lemma registry_first_write_wins_witness :
  UIAutoCompletableCmds.getCmd UIAutoCompletableCmds.NOTE_LOOKUP
    (UIAutoCompletableCmds.registerAll
       [(UIAutoCompletableCmds.NOTE_LOOKUP, 2); ("OTHER", 3)]
       (UIAutoCompletableCmds.registerIfNotRegistered
          UIAutoCompletableCmds.NOTE_LOOKUP 1 ∅))
  = Normal 1.
Proof.
  apply (proj1 (proj2 (registry_first_write_wins
                         UIAutoCompletableCmds.NOTE_LOOKUP))).
  reflexivity.
Defined.

(* ===================================================================== *)
(** * Theorems: autoCompleteNoteLookup *)
(* ===================================================================== *)

Section AutoCompleterTheorems.
Import AutoCompleter.
Variable doesContainSpecialQueryChars : string -> bool.

(** C9.  With no file names to choose from, [autoCompleteNoteLookup]
    returns the current value unchanged. *)
Theorem autoComplete_no_fnames (currentValue activeItemValue : string) :
  autoCompleteNoteLookup doesContainSpecialQueryChars
                         currentValue activeItemValue []
  = currentValue.
Proof. reflexivity. Qed.

Lemma includes_elem_of (x : string) (a : list string) :
  includes x a = true <-> x ∈ a.
Proof.
  unfold includes. rewrite existsb_exists. split.
  - intros (y & Hy & Heq). apply String.eqb_eq in Heq as ->.
    by apply list_elem_of_In.
  - intros Hin. exists x. split; [by apply list_elem_of_In|].
    apply String.eqb_refl.
Qed.

(** C10.  With a non-empty list of file names, when the current value
    differs from the active item's value and the active item's value is
    one of the file names, [autoCompleteNoteLookup] returns the active
    item's value. *)
Theorem autoComplete_active_item
    (currentValue activeItemValue : string) (fnames : list string) :
  fnames <> [] ->
  currentValue <> activeItemValue ->
  activeItemValue ∈ fnames ->
  autoCompleteNoteLookup doesContainSpecialQueryChars
                         currentValue activeItemValue fnames
  = activeItemValue.
Proof.
  intros Hne Hdiff Hin. unfold autoCompleteNoteLookup.
  destruct fnames as [|f fnames]; [done|]. simpl length. simpl Nat.eqb.
  cbv iota.
  apply includes_elem_of in Hin. rewrite Hin.
  apply String.eqb_neq in Hdiff. by rewrite Hdiff.
Qed.
End AutoCompleterTheorems.

Lemma autoComplete_active_item_witness :
  AutoCompleter.autoCompleteNoteLookup (fun _ => false)
    "la" "templates.book.characters"
    ["language.python"; "templates.book.characters"]
  = "templates.book.characters".
Proof.
  apply (autoComplete_active_item (fun _ => false)).
  - discriminate.
  - discriminate.
  - right. by left.
Defined.

Example autoComplete_dig_deeper :
  AutoCompleter.autoCompleteNoteLookup (fun _ => false)
    "languages" "languages" ["languages"; "languages.python.data"]
  = "languages.python".
Proof. reflexivity. Qed.

Example autoComplete_middle_match :
  AutoCompleter.autoCompleteNoteLookup (fun _ => false)
    "pyth" "pyth" ["languages.python.data"]
  = "languages.pyth".
Proof. reflexivity. Qed.

(* ===================================================================== *)
(** * Further properties *)
(* ===================================================================== *)

Section StringFacts.

Lemma str_prefix_refl (s : string) : String.prefix s s = true.
Proof.
  induction s as [|c s IH]; simpl; [done|].
  destruct (ascii_dec c c); [done|congruence].
Qed.

Lemma str_prefix_substring (n : nat) : forall s,
  String.prefix (String.substring 0 n s) s = true.
Proof.
  induction n as [|n IH]; intros [|c s]; simpl; try done.
  destruct (ascii_dec c c); [apply IH|congruence].
Qed.

Lemma str_length_substring (n : nat) : forall m s,
  String.length (String.substring n m s) = Nat.min m (String.length s - n).
Proof.
  induction n as [|n IH]; intros m s.
  - revert s. induction m as [|m IHm]; intros [|c s]; simpl; try done.
    rewrite IHm. by rewrite Nat.sub_0_r.
  - destruct s as [|c s]; simpl.
    + destruct m; simpl; lia.
    + apply IH.
Qed.

Lemma str_prefix_length (a : string) : forall s,
  String.prefix a s = true -> String.length a <= String.length s.
Proof.
  induction a as [|c a IH]; intros [|d s] H; simpl in *; try lia; try done.
  destruct (ascii_dec c d); [|done]. apply IH in H. lia.
Qed.

Lemma str_prefix_of_prefixes (s : string) : forall a b,
  String.prefix a s = true -> String.prefix b s = true ->
  String.length a <= String.length b -> String.prefix a b = true.
Proof.
  induction s as [|d s IH]; intros [|c a] [|c' b] Ha Hb Hlen;
    simpl in *; try done; try lia.
  destruct (ascii_dec c d) as [->|]; [|done].
  destruct (ascii_dec c' d) as [->|]; [|done].
  destruct (ascii_dec d d); [|congruence].
  apply IH; auto. lia.
Qed.

Lemma str_substring_append (n : nat) : forall m s,
  String.substring 0 n s +:+ String.substring n m s
  = String.substring 0 (n + m) s.
Proof.
  induction n as [|n IH]; intros m s.
  - by destruct s.
  - destruct s as [|c s]; simpl.
    + by destruct m.
    + change (String c (String.substring 0 n s +:+ String.substring n m s)
              = String c (String.substring 0 (n + m) s)).
      f_equal. apply IH.
Qed.

Lemma index_dot_lt (n d : nat) (s : string) :
  String.index n "." s = Some d -> d < String.length s.
Proof.
  intros H. apply index_correct1 in H.
  apply (f_equal String.length) in H. rewrite str_length_substring in H.
  change (String.length ".") with 1 in H.
  pose proof (Nat.le_min_r 1 (String.length s - d)). lia.
Qed.

Lemma index_dot_get (n d : nat) (s : string) :
  String.index n "." s = Some d -> String.get d s = Some "."%char.
Proof.
  intros H. apply index_correct1 in H. simpl in H.
  pose proof (substring_correct1 s d 1 0 ltac:(lia)) as G.
  rewrite H in G. simpl in G. by rewrite <- G.
Qed.
End StringFacts.

Section MatchPrefix.
Import AutoCompleter.

Lemma mp_is_prefix topPick value minIdx :
  String.prefix (matchPrefixTillNextDot topPick value minIdx) topPick = true.
Proof.
  funelim (matchPrefixTillNextDot topPick value minIdx);
    auto using str_prefix_refl, str_prefix_substring.
Qed.

Lemma mp_length_ge topPick value minIdx :
  String.length value <= String.length topPick ->
  String.length value
  <= String.length (matchPrefixTillNextDot topPick value minIdx).
Proof.
  funelim (matchPrefixTillNextDot topPick value minIdx); intros Hlen; auto.
  rewrite str_length_substring.
  pose proof (index_ge _ _ _ _ Hdot). pose proof (index_dot_lt _ _ _ Hdot).
  lia.
Qed.

Lemma mp_length_gt topPick value minIdx :
  String.length value < String.length topPick ->
  String.length value
  < String.length (matchPrefixTillNextDot topPick value minIdx).
Proof.
  funelim (matchPrefixTillNextDot topPick value minIdx); intros Hlen; auto.
  rewrite str_length_substring.
  pose proof (index_ge _ _ _ _ Hdot). pose proof (index_dot_lt _ _ _ Hdot).
  lia.
Qed.

Lemma mp_keeps_value topPick value minIdx :
  String.prefix value topPick = true ->
  String.prefix value (matchPrefixTillNextDot topPick value minIdx) = true.
Proof.
  intros Hpre. apply (str_prefix_of_prefixes topPick); auto.
  - apply mp_is_prefix.
  - apply mp_length_ge. by apply str_prefix_length.
Qed.

(** X1.  [matchPrefixTillNextDot] answers a prefix of the top pick: the
    whole of it, or the part that ends right before one of its dots. *)
Theorem matchPrefixTillNextDot_stops_at_dot
    (topPick value : string) (minIdx : nat) :
  String.prefix (matchPrefixTillNextDot topPick value minIdx) topPick = true
  /\ (matchPrefixTillNextDot topPick value minIdx = topPick
      \/ String.get
           (String.length (matchPrefixTillNextDot topPick value minIdx))
           topPick = Some "."%char).
Proof.
  split; [apply mp_is_prefix|].
  funelim (matchPrefixTillNextDot topPick value minIdx); auto.
  right. rewrite str_length_substring.
  pose proof (index_dot_lt _ _ _ Hdot).
  replace (Nat.min dotIdx (String.length topPick - 0)) with dotIdx by lia.
  by eapply index_dot_get.
Qed.

(** X2.  When the top pick starts with the value, so does what
    [matchPrefixTillNextDot] answers; and when the top pick is longer than
    the value, the answer is longer than the value too: a completion adds
    at least one character. *)
Theorem matchPrefixTillNextDot_extends
    (topPick value : string) (minIdx : nat) :
  String.prefix value topPick = true ->
  String.prefix value (matchPrefixTillNextDot topPick value minIdx) = true
  /\ (String.length value < String.length topPick ->
      String.length value
      < String.length (matchPrefixTillNextDot topPick value minIdx)).
Proof.
  intros Hpre. split; [by apply mp_keeps_value|apply mp_length_gt].
Qed.
End MatchPrefix.

Section LookupFacts.
Import AutoCompleter.
Variable doesContainSpecialQueryChars : string -> bool.

Lemma mn_is_prefix topPick currentValue :
  String.prefix (matchNoteUpToCurrValue topPick currentValue) topPick = true.
Proof.
  unfold matchNoteUpToCurrValue.
  destruct (String.index 0 currentValue topPick) as [idx|] eqn:Hidx;
    [|apply str_prefix_refl].
  pose proof (index_correct1 _ _ _ _ Hidx) as Hsub.
  rewrite <- Hsub at 1. rewrite str_substring_append.
  apply str_prefix_substring.
Qed.

Lemma mn_ends_with topPick currentValue :
  str_includes currentValue topPick = true ->
  exists before,
    matchNoteUpToCurrValue topPick currentValue = before +:+ currentValue.
Proof.
  unfold matchNoteUpToCurrValue, str_includes.
  destruct (String.index 0 currentValue topPick); [by eexists|discriminate].
Qed.

(** X3.  [matchNoteUpToCurrValue] answers a prefix of the top pick.  When
    the current value occurs in the top pick, the answer is the top pick
    cut right after the first occurrence of the current value, so that it
    ends with the current value; when it does not occur, the answer is the
    whole top pick. *)
Theorem matchNoteUpToCurrValue_prefix (topPick currentValue : string) :
  String.prefix (matchNoteUpToCurrValue topPick currentValue) topPick = true
  /\ (str_includes currentValue topPick = true ->
      exists idx,
        String.substring idx (String.length currentValue) topPick
        = currentValue
        /\ (forall p, p < idx ->
              String.substring p (String.length currentValue) topPick
              <> currentValue)
        /\ matchNoteUpToCurrValue topPick currentValue
           = String.substring 0 (idx + String.length currentValue) topPick
        /\ matchNoteUpToCurrValue topPick currentValue
           = String.substring 0 idx topPick +:+ currentValue)
  /\ (str_includes currentValue topPick = false ->
      matchNoteUpToCurrValue topPick currentValue = topPick).
Proof.
  split; [apply mn_is_prefix|].
  unfold matchNoteUpToCurrValue, str_includes.
  destruct (String.index 0 currentValue topPick) as [idx|] eqn:Hidx.
  - split; [|discriminate]. intros _. exists idx.
    pose proof (index_correct1 _ _ _ _ Hidx) as Hsub.
    split_and!; [exact Hsub| | |reflexivity].
    + intros p Hp. apply (index_correct2 _ _ _ _ Hidx); lia.
    + rewrite <- Hsub at 1. apply str_substring_append.
  - split; [discriminate|done].
Qed.

Lemma second_pick (top : string) (rest : list string) :
  (0 <? length (top :: rest) - 1) = true ->
  at_ (top :: rest) (0 + 1) ∈ top :: rest.
Proof.
  destruct rest as [|next rest]; simpl; [discriminate|].
  intros _. right. by left.
Qed.

(** X4.  Whatever its arguments, [autoCompleteNoteLookup] answers the
    current value or a prefix of one of the file names: it never makes up
    text that is in neither. *)
Theorem autoCompleteNoteLookup_result
    (currentValue activeItemValue : string) (fnames : list string) :
  autoCompleteNoteLookup doesContainSpecialQueryChars
                         currentValue activeItemValue fnames = currentValue
  \/ exists f,
       f ∈ fnames
       /\ String.prefix
            (autoCompleteNoteLookup doesContainSpecialQueryChars
                                    currentValue activeItemValue fnames) f
          = true.
Proof.
  unfold autoCompleteNoteLookup.
  destruct fnames as [|top rest]; [by left|].
  change (length (top :: rest) =? 0) with false. cbv iota zeta.
  change (at_ (top :: rest) 0) with top.
  destruct (negb (String.eqb currentValue activeItemValue)
            && includes activeItemValue (top :: rest)) eqn:Hfocus.
  { right. exists activeItemValue. split; [|apply str_prefix_refl].
    apply andb_true_iff in Hfocus as [_ Hin].
    by apply includes_elem_of. }
  destruct (doesContainSpecialQueryChars currentValue).
  { right. exists top. split; [by left|apply str_prefix_refl]. }
  destruct (String.length top <? String.length currentValue); [by left|].
  destruct (String.prefix currentValue top).
  - destruct (String.eqb top currentValue).
    + destruct ((0 <? length (top :: rest) - 1)
                && String.prefix currentValue (at_ (top :: rest) (0 + 1)))
        eqn:Hnext.
      * apply andb_true_iff in Hnext as [Hlt _].
        right. exists (at_ (top :: rest) (0 + 1)).
        split; [by apply second_pick|apply mp_is_prefix].
      * right. exists top. split; [by left|apply str_prefix_refl].
    + right. exists top. split; [by left|apply mp_is_prefix].
  - destruct (str_includes currentValue top).
    + right. exists top. split; [by left|apply mn_is_prefix].
    + right. exists top. split; [by left|apply str_prefix_refl].
Qed.

Lemma str_length_append (a b : string) :
  String.length (a +:+ b) = String.length a + String.length b.
Proof. induction a as [|c a IH]; simpl; [done|]. by rewrite IH. Qed.

(** X5.  When no item is in focus and the current value holds no special
    query characters, what [autoCompleteNoteLookup] answers is at least as
    long as the current value: a completion never shortens what was
    typed. *)
Theorem autoCompleteNoteLookup_never_shortens
    (currentValue activeItemValue : string) (fnames : list string) :
  noItemInFocus currentValue activeItemValue fnames ->
  doesContainSpecialQueryChars currentValue = false ->
  String.length currentValue
  <= String.length (autoCompleteNoteLookup doesContainSpecialQueryChars
                      currentValue activeItemValue fnames).
Proof.
  unfold noItemInFocus, autoCompleteNoteLookup. intros Hfocus Hspecial.
  destruct fnames as [|top rest]; [done|].
  change (length (top :: rest) =? 0) with false. cbv iota zeta.
  change (at_ (top :: rest) 0) with top.
  rewrite Hfocus, Hspecial.
  destruct (String.length top <? String.length currentValue) eqn:Hlen; [done|].
  apply Nat.ltb_ge in Hlen.
  destruct (String.prefix currentValue top) eqn:Hpre.
  - destruct (String.eqb top currentValue).
    + destruct ((0 <? length (top :: rest) - 1)
                && String.prefix currentValue (at_ (top :: rest) (0 + 1)))
        eqn:Hnext; [|done].
      apply andb_true_iff in Hnext as [_ Hnext].
      apply mp_length_ge. by apply str_prefix_length.
    + by apply mp_length_ge.
  - destruct (str_includes currentValue top) eqn:Hinc; [|done].
    destruct (mn_ends_with top currentValue Hinc) as [before ->].
    rewrite str_length_append. lia.
Qed.

(** X6.  When no item is in focus, the current value holds no special
    query characters and the first file name starts with the current
    value, what [autoCompleteNoteLookup] answers starts with the current
    value as well: the completion only adds to what was typed. *)
Theorem autoCompleteNoteLookup_keeps_typed_prefix
    (currentValue activeItemValue top : string) (rest : list string) :
  noItemInFocus currentValue activeItemValue (top :: rest) ->
  doesContainSpecialQueryChars currentValue = false ->
  String.prefix currentValue top = true ->
  String.prefix currentValue
    (autoCompleteNoteLookup doesContainSpecialQueryChars
                            currentValue activeItemValue (top :: rest))
  = true.
Proof.
  unfold noItemInFocus, autoCompleteNoteLookup. intros Hfocus Hspecial Hpre.
  change (length (top :: rest) =? 0) with false. cbv iota zeta.
  change (at_ (top :: rest) 0) with top.
  rewrite Hfocus, Hspecial, Hpre.
  pose proof (str_prefix_length _ _ Hpre) as Hlen.
  apply Nat.ltb_ge in Hlen. rewrite Hlen.
  destruct (String.eqb top currentValue) eqn:Heq.
  - destruct ((0 <? length (top :: rest) - 1)
              && String.prefix currentValue (at_ (top :: rest) (0 + 1)))
      eqn:Hnext; [|done].
    apply andb_true_iff in Hnext as [_ Hnext].
    by apply mp_keeps_value.
  - by apply mp_keeps_value.
Qed.
End LookupFacts.

Section CreateEmptyDBMore.
Import Sqlite SqliteDbFactory.
Variable eng : Engine.
Variable dbFilePath : string.

Lemma issuedIn_issued l : issuedIn (map Issued l) = l.
Proof. induction l as [|s l IH]; [done|]. simpl. f_equal. exact IH. Qed.

Lemma issuedIn_app l1 l2 : issuedIn (l1 ++ l2) = issuedIn l1 ++ issuedIn l2.
Proof. apply omap_app. Qed.

Lemma executedIn_app l1 l2 :
  executedIn (l1 ++ l2) = executedIn l1 ++ executedIn l2.
Proof. apply omap_app. Qed.

Lemma issuedIn_executed done : issuedIn (executed done) = [].
Proof. induction done as [|x done IH]; [done|exact IH]. Qed.

Lemma executedIn_issued l : executedIn (map Issued l) = [].
Proof. induction l as [|s l IH]; [done|exact IH]. Qed.

Lemma executedIn_executed (done : list (Stmt * option Error)) :
  executedIn (executed done) = done.*1.
Proof.
  induction done as [|x done IH]; [done|]. simpl. f_equal. exact IH.
Qed.

(** X8.  [createEmptyDB] issues the three statements of phase 1 in their
    order, and then either nothing more or the five statements of phase 2
    in their order; and when it returns, every statement that was issued
    has been executed exactly once: a failure is not reported before all
    statements of its batch have settled. *)
Theorem createEmptyDB_settles_all_issued (c : Conn) :
  world (createEmptyDB eng dbFilePath) = Some c ->
  (issuedIn (log c) = phase1 \/ issuedIn (log c) = phase1 ++ phase2)
  /\ executedIn (log c) ≡ₚ issuedIn (log c).
Proof.
  intros Hworld.
  destruct (world_opened _ _ _ Hworld) as [store Hopen].
  destruct (createEmptyDB_shape eng dbFilePath store Hopen)
    as (done1 & c1 & P1 & L1 & X1 & F1 & Hcases).
  assert (H1 : issuedIn (log c1) = phase1 /\ executedIn (log c1) ≡ₚ phase1).
  { rewrite L1, issuedIn_app, executedIn_app.
    rewrite issuedIn_issued, issuedIn_executed, executedIn_issued,
      executedIn_executed, app_nil_r. done. }
  destruct H1 as [I1 E1].
  destruct Hcases as [[N1 [e1 Heq]]|[A1 Hrest]].
  { rewrite Heq in Hworld. injection Hworld as <-.
    split; [by left|by rewrite I1]. }
  assert (Hlog : exists done2,
             done2.*1 ≡ₚ phase2
             /\ log c = log c1 ++ map Issued phase2 ++ executed done2).
  { destruct Hrest
      as (done2 & c2 & P2 & L2 & X2 & F2 & [[N2 [e2 Heq]]|[A2 Heq]]);
      rewrite Heq in Hworld; injection Hworld as <-; by exists done2. }
  destruct Hlog as (done2 & P2 & ->).
  assert (H2 : issuedIn (log c1 ++ map Issued phase2 ++ executed done2)
               = phase1 ++ phase2
               /\ executedIn (log c1 ++ map Issued phase2 ++ executed done2)
                  ≡ₚ phase1 ++ phase2).
  { rewrite !issuedIn_app, !executedIn_app.
    rewrite issuedIn_issued, issuedIn_executed, executedIn_issued,
      executedIn_executed, I1, E1, P2, app_nil_r. done. }
  destruct H2 as [I2 E2]. split; [by right|by rewrite I2].
Qed.

(** X9.  A phase-1 creation that fails keeps the whole of phase 2 from being
    issued: no phase-2 table is attempted and the pragma is not sent. *)
Theorem createEmptyDB_phase1_failure_stops (c : Conn) (t : Table) (e : Error) :
  world (createEmptyDB eng dbFilePath) = Some c ->
  t ∈ phase1Tables ->
  Executed (CreateTable t) (Some e) ∈ log c ->
  issuedIn (log c) = phase1
  /\ forall s, s ∈ phase2 -> Issued s ∉ log c.
Proof.
  intros Hworld Ht Hin.
  destruct (world_opened _ _ _ Hworld) as [store Hopen].
  destruct (createEmptyDB_shape eng dbFilePath store Hopen)
    as (done1 & c1 & P1 & L1 & X1 & F1 & Hcases).
  destruct Hcases as [[N1 [e1 Heq]]|[A1 Hrest]].
  - rewrite Heq in Hworld. injection Hworld as <-. split.
    + by rewrite L1, issuedIn_app, issuedIn_issued, issuedIn_executed,
        app_nil_r.
    + intros s Hs. rewrite L1, elem_of_app. intros [H|H].
      * apply issued_in_issued in H. revert Hs H. unfold phase1, phase2.
        rewrite !elem_of_cons, !elem_of_nil. intuition (subst; discriminate).
      * by apply issued_notin_executed in H.
  - exfalso.
    assert (Hlog : exists done2,
               done2.*1 ≡ₚ phase2
               /\ log c = log c1 ++ map Issued phase2 ++ executed done2).
    { destruct Hrest
        as (done2 & c2 & P2 & L2 & X2 & F2 & [[N2 [e2 Heq]]|[A2 Heq]]);
        rewrite Heq in Hworld; injection Hworld as <-; by exists done2. }
    destruct Hlog as (done2 & P2 & Hlog). rewrite Hlog, L1 in Hin.
    rewrite !elem_of_app in Hin. destruct Hin as [[H|H]|[H|H]].
    + by apply executed_notin_issued in H.
    + apply executed_in_executed, A1 in H. discriminate.
    + by apply executed_notin_issued in H.
    + apply executed_in_executed in H.
      pose proof (done_stmt _ _ _ _ P2 H) as Hs. revert Ht Hs.
      unfold phase1Tables, phase2.
      rewrite !elem_of_cons, !elem_of_nil. intuition (subst; discriminate).
Qed.
End CreateEmptyDBMore.

Section TableFacts.
Import Sqlite SqliteDbFactory.
Variable eng : Engine.

Lemma allTables_NoDup : NoDup allTables.
Proof.
  unfold allTables. rewrite !NoDup_cons, !elem_of_cons, !elem_of_nil.
  split_and!; try (intuition discriminate). apply NoDup_nil_2.
Qed.

Lemma apply_stmt_NoDup s d :
  NoDup (tables d) -> NoDup (tables (apply_stmt s d)).
Proof.
  intros Hnd. destruct s as [t|sql]; simpl.
  - case_decide; [done|]. simpl. by apply NoDup_cons.
  - by destruct (String.eqb sql PRAGMA_FK).
Qed.

Lemma exec_NoDup s c :
  NoDup (tables (db c)) -> NoDup (tables (db (exec eng s c).1)).
Proof.
  intros Hnd. unfold exec. destruct (sqlError eng s (db c)); simpl; [done|].
  by apply apply_stmt_NoDup.
Qed.

Lemma settle_NoDup n : forall pending c slots,
  NoDup (tables (db c)) ->
  NoDup (tables (db (settle eng n pending c slots).1)).
Proof.
  induction n as [|n IH]; intros pending c slots Hnd; simpl; [done|].
  destruct (pending !! _) as [[k s]|]; [|done].
  pose proof (exec_NoDup s c Hnd) as Hnd1.
  destruct (exec eng s c) as [c1 r]. by apply IH.
Qed.

Lemma issue_db stmts c : db (issue stmts c) = db c.
Proof. done. Qed.

Lemma combine_NoDup stmts c :
  NoDup (tables (db c)) ->
  NoDup (tables (db (Sqlite.combine eng stmts c).1)).
Proof.
  intros Hnd. unfold Sqlite.combine.
  pose proof (settle_NoDup (length stmts) (imap (fun k s => (k, s)) stmts)
                (issue stmts c) (replicate (length stmts) None)) as H.
  rewrite issue_db in H. specialize (H Hnd).
  by destruct (settle eng (length stmts) (imap (fun k s => (k, s)) stmts)
                 (issue stmts c) (replicate (length stmts) None)).
Qed.

(** A connection that opened a store holding each table once still holds
    each table once when [createEmptyDB] is done with it. *)
Lemma createEmptyDB_NoDup dbFilePath store c :
  open eng dbFilePath = Ok store ->
  NoDup (tables store) ->
  world (createEmptyDB eng dbFilePath) = Some c ->
  NoDup (tables (db c)).
Proof.
  intros Hopen Hnd. unfold createEmptyDB. rewrite Hopen.
  pose proof (combine_NoDup phase1 (mkConn store []) Hnd) as H1.
  destruct (Sqlite.combine eng phase1 (mkConn store [])) as [c1 r1].
  cbn [fst] in H1.
  destruct r1 as [vs|e]; simpl.
  - pose proof (combine_NoDup phase2 c1 H1) as H2.
    destruct (Sqlite.combine eng phase2 c1) as [c2 r2]. cbn [fst] in H2.
    destruct r2; simpl; intros [= <-]; exact H2.
  - intros [= <-]. exact H1.
Qed.

(** X10.  When [createEmptyDB] returns a handle on a store that held each
    of its tables once, the connection holds exactly the seven tables of
    the schema, each once, whichever of them the store held already
    ([Table] has the schema's tables and no other); referential integrity
    is enforced; and the rows are those of the store as opened. *)
Theorem createEmptyDB_success_state dbFilePath store h :
  open eng dbFilePath = Ok store ->
  NoDup (tables store) ->
  result (createEmptyDB eng dbFilePath) = Ok h ->
  NoDup (tables (db h))
  /\ tables (db h) ≡ₚ allTables
  /\ foreign_keys (db h) = true
  /\ rows (db h) = rows store.
Proof.
  intros Hopen Hnd Hres.
  destruct (createEmptyDB_shape eng dbFilePath store Hopen)
    as (done1 & c1 & P1 & L1 & X1 & F1 & [[N1 [e1 Heq]]|[A1 Hrest]]).
  { rewrite Heq in Hres. discriminate. }
  destruct Hrest
    as (done2 & c2 & P2 & L2 & X2 & F2 & [[N2 [e2 Heq]]|[A2 Heq]]).
  { rewrite Heq in Hres. discriminate. }
  rewrite Heq in Hres. injection Hres as <-.
  assert (Hnd2 : NoDup (tables (db c2))).
  { apply (createEmptyDB_NoDup dbFilePath store c2 Hopen Hnd).
    by rewrite Heq. }
  assert (Hok1 : forall s, s ∈ phase1 -> (s, None) ∈ done1).
  { intros s Hs. destruct (stmt_done done1 phase1 s P1 Hs) as [r Hr].
    pose proof (A1 _ Hr) as Hnone. simpl in Hnone. by subst r. }
  assert (Hok2 : forall s, s ∈ phase2 -> (s, None) ∈ done2).
  { intros s Hs. destruct (stmt_done done2 phase2 s P2 Hs) as [r Hr].
    pose proof (A2 _ Hr) as Hnone. simpl in Hnone. by subst r. }
  split_and!.
  - exact Hnd2.
  - apply NoDup_Permutation; [exact Hnd2|apply allTables_NoDup|].
    intros t. split.
    + intros _. unfold allTables. rewrite !elem_of_cons.
      destruct t; auto 10.
    + intros _.
      assert (Hin : CreateTable t ∈ phase1 \/ CreateTable t ∈ phase2).
      { unfold phase1, phase2. rewrite !elem_of_cons.
        destruct t; auto 10. }
      destruct Hin as [Hin|Hin].
      * destruct X2 as (Hsub & _). apply Hsub.
        exact (F1 _ (Hok1 _ Hin)).
      * exact (F2 _ (Hok2 _ Hin)).
  - apply (F2 _ (Hok2 (Run PRAGMA_FK) ltac:(unfold phase2;
                                              rewrite !elem_of_cons;
                                              auto 10))).
    reflexivity.
  - destruct X1 as (_ & _ & R1), X2 as (_ & _ & R2). congruence.
Qed.
End TableFacts.

Section IngestionFacts.
Import Sqlite SqliteDbFactory.
Variable imp : Imports.
Variable eng : Engine.
Variable wsRoot : string.
Variable fileStore : IFileStore.

Lemma combineResultList_first_err {T E} (oks : list (Result T E)) e rest :
  Forall (fun r => isOk r = true) oks ->
  Neverthrow.combineResultList (oks ++ Err e :: rest) = Err e.
Proof.
  unfold Neverthrow.combineResultList.
  set (f := fun (acc : Result (list T) E) (result : Result T E) =>
              match acc with
              | Ok vs => match result with
                         | Err e0 => Err e0
                         | Ok v => Ok (vs ++ [v])
                         end
              | Err e0 => Err e0
              end).
  assert (Herr : forall l e0, foldl f (Err e0) l = Err e0).
  { induction l as [|r l IH]; intros e0; [done|apply IH]. }
  intros Hoks. generalize (@nil T).
  induction Hoks as [|r oks Hr _ IH]; intros acc; simpl.
  - apply Herr.
  - destruct r as [v|e0]; [apply IH|discriminate].
Qed.

Lemma promiseAll_first_rejected {A} (vs : list A) e rest :
  Neverthrow.promiseAll (map Fulfilled vs ++ Rejected e :: rest) = Rejected e.
Proof. induction vs as [|v vs IH]; simpl; [done|]. by rewrite IH. Qed.

Lemma ingestVaults_app l1 l2 c :
  (ingestVaults imp wsRoot fileStore (l1 ++ l2) c).2
  = (ingestVaults imp wsRoot fileStore l1 c).2
    ++ (ingestVaults imp wsRoot fileStore l2
          (ingestVaults imp wsRoot fileStore l1 c).1).2.
Proof.
  revert c. induction l1 as [|v l1 IH]; intros c; simpl; [done|].
  destruct (ingestVault imp wsRoot fileStore v c) as [c1 p].
  specialize (IH c1).
  destruct (ingestVaults imp wsRoot fileStore (l1 ++ l2) c1) as [c2 ps].
  destruct (ingestVaults imp wsRoot fileStore l1 c1) as [c3 qs].
  simpl in *. by rewrite IH.
Qed.

(** When the parser never throws, every task resolves: to the rejection
    reason of its listing as an [Err], and otherwise to an [Ok]. *)
Lemma ingestVaults_results vaults :
  (forall u, u ∈ vaults -> neverThrows imp u) ->
  forall c, exists rs,
    (ingestVaults imp wsRoot fileStore vaults c).2 = map Fulfilled rs
    /\ Forall2 (fun u r =>
                  match noteListing imp wsRoot fileStore u with
                  | Rejected e => r = Err e
                  | Fulfilled _ => isOk r = true
                  end) vaults rs.
Proof.
  induction vaults as [|v vaults IH]; intros Hnt c; simpl.
  - exists []. split; [done|constructor].
  - unfold ingestVault, noteListing in *.
    destruct (readDir fileStore (URI_parse (vault2Path imp v wsRoot)) ["*.md"])
      as [resp|e] eqn:Hlist.
    + destruct (Hnt v (ltac:(by left)) (resp_data resp) c
                    (vault2Path imp v wsRoot)) as (c1 & parsed & ->).
      destruct (IH (fun u Hu => Hnt u (ltac:(by right))) c1) as (rs & Hrs & HF).
      destruct (ingestVaults imp wsRoot fileStore vaults c1) as [c2 ps].
      simpl in *. subst ps. exists (Ok parsed :: rs). split; [done|].
      constructor; [by rewrite Hlist|done].
    + destruct (IH (fun u Hu => Hnt u (ltac:(by right))) c) as (rs & Hrs & HF).
      destruct (ingestVaults imp wsRoot fileStore vaults c) as [c2 ps].
      simpl in *. subst ps. exists (Err e :: rs). split; [done|].
      constructor; [by rewrite Hlist|done].
Qed.

(** X11.  When the parser never throws, a listing whose promise rejects
    makes [createInitializedDB] return that rejection's reason as its
    error, provided the listings of the vaults before it did not reject. *)
Theorem createInitializedDB_rejected_listing
    (dbFilePath : string) (h : Conn) (pre post : list DVault) (v : DVault)
    (e : Error) :
  result (createEmptyDB eng dbFilePath) = Ok h ->
  (forall u, u ∈ pre ++ v :: post -> neverThrows imp u) ->
  (forall u, u ∈ pre ->
     exists resp, noteListing imp wsRoot fileStore u = Fulfilled resp) ->
  noteListing imp wsRoot fileStore v = Rejected e ->
  result (createInitializedDB imp eng wsRoot (pre ++ v :: post) fileStore
                              dbFilePath)
  = Fulfilled (Err e).
Proof.
  intros Hres Hnt Hpre Hv. unfold createInitializedDB. rewrite Hres.
  destruct (ingestVaults_results (pre ++ v :: post) Hnt h) as (rs & Hrs & HF).
  destruct (ingestVaults imp wsRoot fileStore (pre ++ v :: post) h) as [c' ps].
  simpl in Hrs. subst ps.
  apply Forall2_app_inv_l in HF as (rs1 & rs2 & H1 & H2 & ->).
  inversion H2 as [|? r ? rs3 Hr H3]; subst. rewrite Hv in Hr. subst r.
  assert (Hoks : Forall (fun r => isOk r = true) rs1).
  { clear -H1 Hpre. induction H1 as [|u r pre rs1 Hur _ IH]; constructor.
    - destruct (Hpre u) as [resp Hresp]; [by left|]. by rewrite Hresp in Hur.
    - apply IH. intros u' Hu'. apply Hpre. by right. }
  unfold Neverthrow.combine. rewrite promiseAll_fulfilled.
  by rewrite (combineResultList_first_err rs1 e rs3 Hoks).
Qed.

(** X12.  When the note parser throws for one vault whose listing was
    answered, and for no other vault, the promise that
    [createInitializedDB] returns rejects with what was thrown: the
    caller gets neither a handle nor an error result. *)
Theorem createInitializedDB_parser_throws
    (dbFilePath : string) (h : Conn) (pre post : list DVault) (v : DVault)
    (resp : RespV3 (list string)) (e : Error) :
  result (createEmptyDB eng dbFilePath) = Ok h ->
  (forall u, u ∈ pre ++ post -> neverThrows imp u) ->
  noteListing imp wsRoot fileStore v = Fulfilled resp ->
  (forall c, exists c',
      parseAllNoteFilesForSqlite imp (resp_data resp) v c
                                 (vault2Path imp v wsRoot) = (c', Throw e)) ->
  result (createInitializedDB imp eng wsRoot (pre ++ v :: post) fileStore
                              dbFilePath)
  = Rejected e.
Proof.
  intros Hres Hnt Hv Hthrow. unfold createInitializedDB. rewrite Hres.
  pose proof (ingestVaults_app pre (v :: post) h) as Happ.
  destruct (ingestVaults_results pre
              (fun u Hu => Hnt u (ltac:(apply elem_of_app; by left))) h)
    as (rs & Hrs & _).
  destruct (ingestVaults imp wsRoot fileStore (pre ++ v :: post) h) as [c' ps].
  destruct (ingestVaults imp wsRoot fileStore pre h) as [c1 qs].
  simpl in Happ, Hrs. subst qs ps.
  unfold ingestVault. fold (noteListing imp wsRoot fileStore v).
  rewrite Hv. destruct (Hthrow c1) as [c2 ->].
  destruct (ingestVaults imp wsRoot fileStore post c2) as [c3 ps3]. simpl.
  unfold Neverthrow.combine. by rewrite promiseAll_first_rejected.
Qed.
End IngestionFacts.

Section InitSchemaMore.
Import SqliteDbFactory.
Variable imp : Imports.
Variable wsRoot : string.
Variable fileStore : IFileStore.

Lemma combineWithAllErrors_isOk {T E} (l : list (Result T E)) :
  isOk (Neverthrow.combineResultListWithAllErrors l) = forallb isOk l.
Proof.
  unfold Neverthrow.combineResultListWithAllErrors.
  set (f := fun (acc : Result (list T) (list E)) (result : Result T E) =>
              match result, acc with
              | Err e, Err es => Err (es ++ [e])
              | Err e, Ok _ => Err [e]
              | Ok v, Ok vs => Ok (vs ++ [v])
              | Ok _, Err es => Err es
              end).
  assert (G : forall acc, isOk (foldl f acc l) = isOk acc && forallb isOk l).
  { induction l as [|r l IH]; intros acc; simpl.
    - by rewrite andb_true_r.
    - rewrite IH. destruct acc, r; simpl; reflexivity. }
  by rewrite G.
Qed.

Lemma all_ok_map {T E} (l : list (Result T E)) :
  forallb isOk l = true -> exists vs, l = map Ok vs.
Proof.
  induction l as [|r l IH]; simpl; intros H.
  - by exists [].
  - destruct r as [v|e]; [|discriminate].
    destruct (IH H) as [vs ->]. by exists (v :: vs).
Qed.

Lemma combineWithAllErrors_ok_inv {T E} (l : list (Result T E)) vs :
  Neverthrow.combineResultListWithAllErrors l = Ok vs -> l = map Ok vs.
Proof.
  intros H. pose proof (combineWithAllErrors_isOk l) as Hok.
  rewrite H in Hok. simpl in Hok. symmetry in Hok.
  destruct (all_ok_map l Hok) as [ws ->].
  rewrite combineWithAllErrors_all_ok in H. by injection H as ->.
Qed.

Lemma discoverVault_ok v r :
  discoverVault imp wsRoot fileStore v = Ok r ->
  parsedOf imp wsRoot fileStore v = schemas r
  /\ parseErrorsOf imp wsRoot fileStore v
     = match errors r with Some es => es | None => [] end.
Proof.
  unfold discoverVault, parsedOf, parseErrorsOf, schemaListing.
  destruct (readDir fileStore (URI_file (vault2Path imp v wsRoot))
                    ["*.schema.yml"]) as [[files|e]|e]; simpl;
    intros [= <-]; done.
Qed.

Lemma filterDefined_flatMap_errors (res : list SchemaParseResp) :
  filterDefined (flatMap errors res)
  = flat_map (fun r => match errors r with Some es => es | None => [] end) res.
Proof.
  unfold filterDefined, flatMap.
  induction res as [|r res IH]; simpl; [done|].
  rewrite omap_app, IH. f_equal.
  destruct (errors r) as [es|]; [|done].
  induction es as [|e es IHes]; simpl; [done|]. f_equal. exact IHes.
Qed.

(** X13.  Whatever the vaults hold, an entry of the dictionary that
    [initSchema] handed out is, once the callback has run, a module that
    the parser read in one of the vaults, stored under its own root id. *)
Theorem initSchema_entries_are_parsed_modules
    (vaults : list DVault) (k : string) (s : SchemaModuleProps) :
  schemaDict (heapSettled (initSchema imp vaults wsRoot fileStore)) !! k
  = Some s ->
  id (root s) = k
  /\ exists v, v ∈ vaults /\ s ∈ parsedOf imp wsRoot fileStore v.
Proof.
  unfold initSchema, enqueue, runJobs. simpl. unfold initSchemaJob.
  destruct (Neverthrow.combineResultListWithAllErrors
              (map (discoverVault imp wsRoot fileStore) vaults))
    as [res|es] eqn:Hres; simpl; [|by rewrite lookup_empty].
  rewrite filterDefined_flatMap_Some, mergeSchemas_lookup, lookup_empty.
  unfold lastWithRoot.
  destruct (last _) as [s'|] eqn:Hlast; [|discriminate].
  intros [= ->]. apply last_Some_elem_of, list_elem_of_filter in Hlast
    as [Hid Hin].
  split; [done|].
  apply list_elem_of_In, in_flat_map in Hin as (r & Hr & Hs).
  apply combineWithAllErrors_ok_inv in Hres.
  assert (Hv : Ok r ∈ map (discoverVault imp wsRoot fileStore) vaults).
  { rewrite Hres. apply elem_of_map. exists r. split; [done|].
    by apply list_elem_of_In. }
  apply elem_of_map in Hv as (v & Hv & Hin).
  exists v. split; [done|].
  symmetry in Hv. apply discoverVault_ok in Hv as [-> _].
  by apply list_elem_of_In.
Qed.

(** X14.  One vault whose listing fails, by an error response or by a
    rejected promise, is enough for [initSchema] to drop everything: the
    callback never runs, so the dictionary stays empty and no error is
    kept, whatever the parser read in the other vaults. *)
Theorem initSchema_failed_listing_drops_all
    (vaults : list DVault) (v : DVault) (e : Error) :
  v ∈ vaults ->
  schemaListing imp wsRoot fileStore v = Fulfilled (RespError e)
  \/ schemaListing imp wsRoot fileStore v = Rejected e ->
  returned (initSchema imp vaults wsRoot fileStore) = Ok SchemaDictRef
  /\ heapSettled (initSchema imp vaults wsRoot fileStore) = mkHeap ∅ [].
Proof.
  intros Hv Hfail. split; [reflexivity|].
  unfold initSchema, enqueue, runJobs. simpl. unfold initSchemaJob.
  pose proof (combineWithAllErrors_isOk
                (map (discoverVault imp wsRoot fileStore) vaults)) as Hok.
  destruct (Neverthrow.combineResultListWithAllErrors
              (map (discoverVault imp wsRoot fileStore) vaults))
    as [res|es]; [|done].
  exfalso. simpl in Hok. symmetry in Hok.
  rewrite forallb_forall in Hok.
  specialize (Hok (discoverVault imp wsRoot fileStore v)
                  (in_map _ _ _ (proj1 (list_elem_of_In _ _) Hv))).
  unfold discoverVault, schemaListing in *.
  destruct Hfail as [Hf|Hf]; rewrite Hf in Hok; discriminate.
Qed.

(** X15.  When every listing was answered, the parse errors of all vaults
    reach [errors], in vault order, once the callback has run; the value
    that [initSchema] returned is [Ok] all the same. *)
Theorem initSchema_collects_parse_errors (vaults : list DVault) :
  allListed imp wsRoot fileStore vaults ->
  returned (initSchema imp vaults wsRoot fileStore) = Ok SchemaDictRef
  /\ errorsVar (heapSettled (initSchema imp vaults wsRoot fileStore))
     = flat_map (parseErrorsOf imp wsRoot fileStore) vaults.
Proof.
  intros Hall. split; [reflexivity|].
  destruct (discoverVault_listed imp wsRoot fileStore vaults Hall)
    as (res & Hres & _).
  unfold initSchema, enqueue, runJobs. simpl. unfold initSchemaJob.
  rewrite Hres, combineWithAllErrors_all_ok. simpl.
  rewrite filterDefined_flatMap_errors.
  clear Hall. revert res Hres.
  induction vaults as [|v vaults IH]; intros [|r res] Hres;
    try discriminate; [done|].
  simpl in Hres. injection Hres as Hv Hres. simpl.
  apply discoverVault_ok in Hv as [_ ->]. f_equal. by apply IH.
Qed.
End InitSchemaMore.

Section ReadAllSchemaMore.
Import SqliteDbFactory.
Variable imp : Imports.
Variable wsRoot : string.
Variable fileStore : IFileStore.

Lemma readVaultSchemas_responses vaults :
  noneRejects imp wsRoot fileStore vaults ->
  exists responses,
    map (readVaultSchemas imp wsRoot fileStore) vaults = map Fulfilled responses.
Proof.
  intros Hall.
  destruct (readVaultSchemas_fulfilled imp wsRoot fileStore vaults Hall)
    as (responses & Hmap & _).
  by exists responses.
Qed.

Lemma response_of_vault vaults responses r :
  map (readVaultSchemas imp wsRoot fileStore) vaults = map Fulfilled responses ->
  r ∈ responses ->
  exists v, v ∈ vaults /\ readVaultSchemas imp wsRoot fileStore v = Fulfilled r.
Proof.
  intros Hmap Hr.
  assert (H : Fulfilled r ∈ map (readVaultSchemas imp wsRoot fileStore) vaults).
  { rewrite Hmap. apply elem_of_map. by exists r. }
  apply elem_of_map in H as (v & Hv & Hin). by exists v.
Qed.

Lemma vault_response vaults responses v :
  map (readVaultSchemas imp wsRoot fileStore) vaults = map Fulfilled responses ->
  v ∈ vaults ->
  exists r, r ∈ responses /\ readVaultSchemas imp wsRoot fileStore v = Fulfilled r.
Proof.
  intros Hmap Hv.
  assert (H : readVaultSchemas imp wsRoot fileStore v ∈ map Fulfilled responses).
  { rewrite <- Hmap. apply elem_of_map. by exists v. }
  apply elem_of_map in H as (r & Hr & Hin). by exists r.
Qed.

Lemma elem_of_flatMap_inv {A B} (f : A -> option (list B)) (xs : list A) y :
  y ∈ filterDefined (flatMap f xs) ->
  exists x ys, x ∈ xs /\ f x = Some ys /\ y ∈ ys.
Proof.
  unfold filterDefined, flatMap. intros H.
  apply list_elem_of_omap in H as (o & Ho & ->).
  apply list_elem_of_In, in_flat_map in Ho as (x & Hx & Ho).
  destruct (f x) as [ys|] eqn:Hf.
  - apply in_map_iff in Ho as (y' & [= ->] & Hy).
    exists x, ys. split_and!; [by apply list_elem_of_In|done|].
    by apply list_elem_of_In.
  - destruct Ho as [Ho|[]]. discriminate.
Qed.

Lemma flatMap_single {A B} (g : A -> option B) (xs : list A) :
  filterDefined (flatMap (fun x => match g x with
                                   | Some e => Some [e]
                                   | None => None
                                   end) xs)
  = omap g xs.
Proof.
  unfold filterDefined, flatMap.
  induction xs as [|x xs IH]; simpl; [done|].
  rewrite omap_app, IH. by destruct (g x).
Qed.

(** The response that [readAllSchema] assembles from those of the vaults. *)
Lemma readAllSchema_assembled vaults responses :
  map (readVaultSchemas imp wsRoot fileStore) vaults = map Fulfilled responses ->
  readAllSchema imp vaults wsRoot fileStore
  = Fulfilled
      (mkResp (Some (filterDefined (flatMap data responses)))
              (if 0 <? length (omap error responses)
               then Some (DendronCompositeError (omap error responses))
               else None)).
Proof.
  intros Hmap. unfold readAllSchema.
  by rewrite Hmap, promiseAll_fulfilled, flatMap_single.
Qed.

(** X16.  When no listing rejects, the data of [readAllSchema] holds exactly
    the modules that the parser read in the vaults whose listing answered
    at least one file: none is lost, whatever errors other vaults or the
    parser reported, and nothing else is added. *)
Theorem readAllSchema_data_exact (vaults : list DVault) :
  noneRejects imp wsRoot fileStore vaults ->
  exists resp modules,
    readAllSchema imp vaults wsRoot fileStore = Fulfilled resp
    /\ data resp = Some modules
    /\ forall m,
         m ∈ modules <->
         exists b files,
           b ∈ vaults
           /\ schemaListing imp wsRoot fileStore b = Fulfilled (RespData files)
           /\ files <> []
           /\ m ∈ schemas (SchemaParser_parse imp wsRoot files b).
Proof.
  intros Hall.
  destruct (readVaultSchemas_responses vaults Hall) as [responses Hmap].
  eexists _, _. split; [by apply readAllSchema_assembled|].
  split; [reflexivity|]. intros m. split.
  - intros (r & ys & Hr & Hdata & Hm)%elem_of_flatMap_inv.
    destruct (response_of_vault vaults responses r Hmap Hr) as (b & Hb & Heq).
    unfold readVaultSchemas in Heq. unfold schemaListing.
    destruct (readDir fileStore (URI_file (vault2Path imp b wsRoot))
                      ["*.schema.yml"]) as [[files|e]|e] eqn:Hlist;
      try discriminate.
    + destruct files as [|f files]; simpl in Heq; injection Heq as <-;
        simpl in Hdata; injection Hdata as <-.
      * by apply elem_of_nil in Hm.
      * rewrite map_id in Hm. exists b, (f :: files). by split_and!.
    + injection Heq as <-. simpl in Hdata. injection Hdata as <-.
      by apply elem_of_nil in Hm.
  - intros (b & files & Hb & Hlist & Hne & Hm).
    destruct (vault_response vaults responses b Hmap Hb) as (r & Hr & Heq).
    unfold readVaultSchemas, schemaListing in *. rewrite Hlist in Heq.
    destruct files as [|f files]; [done|]. simpl in Heq.
    rewrite map_id in Heq. injection Heq as <-.
    eapply elem_of_flatMap; [exact Hr|reflexivity|exact Hm].
Qed.

(** X17.  When no listing rejects, [readAllSchema] answers without an error
    exactly when every vault's listing answered at least one file and the
    parser reported no errors for any vault. *)
Theorem readAllSchema_no_error_iff (vaults : list DVault) :
  noneRejects imp wsRoot fileStore vaults ->
  exists resp,
    readAllSchema imp vaults wsRoot fileStore = Fulfilled resp
    /\ (error resp = None <->
        forall v, v ∈ vaults ->
          exists files,
            schemaListing imp wsRoot fileStore v = Fulfilled (RespData files)
            /\ files <> []
            /\ errors (SchemaParser_parse imp wsRoot files v) = None).
Proof.
  intros Hall.
  destruct (readVaultSchemas_responses vaults Hall) as [responses Hmap].
  eexists. split; [by apply readAllSchema_assembled|]. simpl.
  assert (Hnil : omap error responses = []
                 <-> forall r, r ∈ responses -> error r = None).
  { clear. induction responses as [|r rs IH]; simpl.
    - split; [|done]. intros _ r Hr. by apply elem_of_nil in Hr.
    - destruct (error r) as [e|] eqn:He.
      + split; [discriminate|]. intros H.
        specialize (H r (ltac:(by left))). congruence.
      + rewrite IH. split.
        * intros H r' [->|Hr']%elem_of_cons; auto.
        * intros H r' Hr'. apply H. by right. }
  assert (Hif : (if 0 <? length (omap error responses)
                 then Some (DendronCompositeError (omap error responses))
                 else None) = None
                <-> omap error responses = []).
  { destruct (omap error responses); simpl; split; done. }
  rewrite Hif, Hnil. split.
  - intros Hclean v Hv.
    destruct (vault_response vaults responses v Hmap Hv) as (r & Hr & Heq).
    specialize (Hclean r Hr).
    unfold readVaultSchemas, schemaListing in *.
    destruct (readDir fileStore (URI_file (vault2Path imp v wsRoot))
                      ["*.schema.yml"]) as [[files|e]|e]; try discriminate.
    + destruct files as [|f files]; simpl in Heq; injection Heq as <-;
        simpl in Hclean; [discriminate|].
      rewrite map_id in Hclean. exists (f :: files). split_and!; try done.
      by destruct (errors _).
    + injection Heq as <-. discriminate.
  - intros Hclean r Hr.
    destruct (response_of_vault vaults responses r Hmap Hr) as (v & Hv & Heq).
    destruct (Hclean v Hv) as (files & Hlist & Hne & Herr).
    unfold readVaultSchemas, schemaListing in *. rewrite Hlist in Heq.
    destruct files as [|f files]; [done|]. simpl in Heq.
    rewrite map_id in Heq. injection Heq as <-. simpl. by rewrite Herr.
Qed.

Lemma readAllSchema_error_member vaults responses r ev :
  map (readVaultSchemas imp wsRoot fileStore) vaults = map Fulfilled responses ->
  r ∈ responses ->
  error r = Some ev ->
  exists errs,
    readAllSchema imp vaults wsRoot fileStore
    = Fulfilled (mkResp (Some (filterDefined (flatMap data responses)))
                        (Some (DendronCompositeError errs)))
    /\ ev ∈ errs.
Proof.
  intros Hmap Hr Hev.
  assert (Hin : ev ∈ omap error responses).
  { apply list_elem_of_omap. by exists r. }
  exists (omap error responses). split; [|done].
  rewrite (readAllSchema_assembled vaults responses Hmap).
  destruct (omap error responses); [by apply elem_of_nil in Hin|done].
Qed.

(** X18.  When no listing rejects, a listing that answers an error response
    is reported like an empty one, as a MINOR NO_SCHEMA_FOUND error naming
    the vault, with the listing's error as its payload. *)
Theorem readAllSchema_listing_error_payload
    (vaults : list DVault) (v : DVault) (e : Error) :
  noneRejects imp wsRoot fileStore vaults ->
  v ∈ vaults ->
  schemaListing imp wsRoot fileStore v = Fulfilled (RespError e) ->
  exists errs modules,
    readAllSchema imp vaults wsRoot fileStore
    = Fulfilled (mkResp (Some modules) (Some (DendronCompositeError errs)))
    /\ DendronCompositeError
         [DendronError ("Unable to get schemas for vault " +:+ getName imp v)
                       (Some NO_SCHEMA_FOUND) (Some MINOR) (Some e)] ∈ errs.
Proof.
  intros Hall Hv Hlist.
  destruct (readVaultSchemas_responses vaults Hall) as [responses Hmap].
  destruct (vault_response vaults responses v Hmap Hv) as (r & Hr & Heq).
  unfold readVaultSchemas, schemaListing in *. rewrite Hlist in Heq.
  injection Heq as <-.
  destruct (readAllSchema_error_member vaults responses _ _ Hmap Hr eq_refl)
    as (errs & Hresp & Hin).
  by exists errs, (filterDefined (flatMap data responses)).
Qed.

(** X19.  When no listing rejects, the errors that the parser reports for a
    vault with files are reported as one composite of their own, and the
    modules that it read in that vault are returned beside them. *)
Theorem readAllSchema_parser_errors_reported
    (vaults : list DVault) (v : DVault) (files : list string)
    (es : list Error) :
  noneRejects imp wsRoot fileStore vaults ->
  v ∈ vaults ->
  schemaListing imp wsRoot fileStore v = Fulfilled (RespData files) ->
  files <> [] ->
  errors (SchemaParser_parse imp wsRoot files v) = Some es ->
  exists errs modules,
    readAllSchema imp vaults wsRoot fileStore
    = Fulfilled (mkResp (Some modules) (Some (DendronCompositeError errs)))
    /\ DendronCompositeError es ∈ errs
    /\ forall m, m ∈ schemas (SchemaParser_parse imp wsRoot files v) ->
                 m ∈ modules.
Proof.
  intros Hall Hv Hlist Hne Herr.
  destruct (readVaultSchemas_responses vaults Hall) as [responses Hmap].
  destruct (vault_response vaults responses v Hmap Hv) as (r & Hr & Heq).
  unfold readVaultSchemas, schemaListing in *. rewrite Hlist in Heq.
  destruct files as [|f files]; [done|]. simpl in Heq.
  rewrite map_id, Herr in Heq. injection Heq as <-.
  destruct (readAllSchema_error_member vaults responses _ _ Hmap Hr eq_refl)
    as (errs & Hresp & Hin).
  exists errs, (filterDefined (flatMap data responses)).
  split_and!; [done|done|].
  intros m Hm. eapply elem_of_flatMap; [exact Hr|reflexivity|exact Hm].
Qed.

(** X20.  When the listing of one vault rejects and no other does,
    [readAllSchema] rejects with that reason: no response, and so no data
    of any other vault, is returned. *)
Theorem readAllSchema_rejects
    (pre post : list DVault) (v : DVault) (e : Error) :
  noneRejects imp wsRoot fileStore (pre ++ post) ->
  schemaListing imp wsRoot fileStore v = Rejected e ->
  readAllSchema imp (pre ++ v :: post) wsRoot fileStore = Rejected e.
Proof.
  intros Hall Hv.
  assert (Hpre : noneRejects imp wsRoot fileStore pre).
  { intros u Hu. apply Hall, elem_of_app. by left. }
  destruct (readVaultSchemas_responses pre Hpre) as [responses Hmap].
  unfold readAllSchema. rewrite map_app, Hmap. simpl.
  unfold readVaultSchemas at 1. unfold schemaListing in Hv. rewrite Hv.
  by rewrite promiseAll_first_rejected.
Qed.
End ReadAllSchemaMore.

Section RegistryMore.
Import UIAutoCompletableCmds.
Context {Cmd : Type}.

Lemma firstRegistered_filter (k : string) (calls : list (string * Cmd)) :
  firstRegistered k (filter (fun call => call.1 = k) calls)
  = firstRegistered k calls.
Proof.
  induction calls as [|[i c] calls IH]; [done|].
  rewrite filter_cons. simpl.
  destruct (decide (i = k)) as [->|Hne]; simpl.
  - by rewrite String.eqb_refl.
  - apply String.eqb_neq in Hne. by rewrite Hne.
Qed.

(** X7.  What [getCmd] answers for an id depends only on the calls of
    [registerIfNotRegistered] made for that id: the calls made for other
    ids can be left out without changing it. *)
Theorem registry_ids_independent
    (k : string) (calls : list (string * Cmd)) (m : gmap string Cmd) :
  getCmd k (registerAll calls m)
  = getCmd k (registerAll (filter (fun call => call.1 = k) calls) m).
Proof.
  unfold getCmd. by rewrite !registerAll_lookup, firstRegistered_filter.
Qed.
End RegistryMore.

Section Witnesses.
Import Sqlite SqliteDbFactory Scenarios MoreScenarios.

Lemma matchPrefixTillNextDot_extends_witness :
  String.prefix "languages"
    (AutoCompleter.matchPrefixTillNextDot "languages.python.data"
                                          "languages" 0) = true
  /\ String.length "languages"
     < String.length
         (AutoCompleter.matchPrefixTillNextDot "languages.python.data"
                                               "languages" 0).
Proof.
  destruct (matchPrefixTillNextDot_extends "languages.python.data"
              "languages" 0 eq_refl) as [H1 H2].
  split; [exact H1|]. apply H2. simpl. lia.
Defined.

Lemma autoCompleteNoteLookup_never_shortens_witness :
  String.length "pyth"
  <= String.length
       (AutoCompleter.autoCompleteNoteLookup (fun _ => false)
          "pyth" "pyth" ["languages.python.data"; "python"]).
Proof.
  apply (autoCompleteNoteLookup_never_shortens (fun _ => false));
    reflexivity.
Defined.

Lemma autoCompleteNoteLookup_keeps_typed_prefix_witness :
  String.prefix "languages"
    (AutoCompleter.autoCompleteNoteLookup (fun _ => false)
       "languages" "languages" ["languages"; "languages.python.data"])
  = true.
Proof.
  apply (autoCompleteNoteLookup_keeps_typed_prefix (fun _ => false));
    reflexivity.
Defined.

Lemma createEmptyDB_settles_all_issued_witness :
  exists c,
    world (createEmptyDB lifoEngine ":memory:") = Some c
    /\ issuedIn (log c) = phase1 ++ phase2
    /\ executedIn (log c) ≡ₚ issuedIn (log c).
Proof.
  destruct (world (createEmptyDB lifoEngine ":memory:")) as [c|] eqn:Hworld;
    [|vm_compute in Hworld; discriminate].
  exists c. split; [reflexivity|].
  destruct (createEmptyDB_settles_all_issued lifoEngine ":memory:" c Hworld)
    as [_ Hperm].
  split; [|exact Hperm].
  vm_compute in Hworld. injection Hworld as <-. reflexivity.
Defined.

Lemma createEmptyDB_phase1_failure_stops_witness :
  exists c,
    world (createEmptyDB linksFails ":memory:") = Some c
    /\ issuedIn (log c) = phase1
    /\ Issued (Run PRAGMA_FK) ∉ log c.
Proof.
  destruct (world (createEmptyDB linksFails ":memory:")) as [c|] eqn:Hworld;
    [|vm_compute in Hworld; discriminate].
  exists c. split; [reflexivity|].
  destruct (createEmptyDB_phase1_failure_stops linksFails ":memory:" c
              Links (JsError "SQLITE_ERROR") Hworld) as [H1 H2].
  - unfold phase1Tables. rewrite !elem_of_cons. auto.
  - vm_compute in Hworld. injection Hworld as <-. simpl.
    rewrite !elem_of_cons. auto.
  - split; [exact H1|]. apply H2. unfold phase2. rewrite !elem_of_cons.
    auto 10.
Defined.

Lemma createEmptyDB_success_state_witness :
  exists h,
    result (createEmptyDB reopens "notes.db") = Ok h
    /\ NoDup (tables (db h))
    /\ tables (db h) ≡ₚ allTables
    /\ foreign_keys (db h) = true
    /\ rows (db h) = [(NoteProps, "root")].
Proof.
  destruct (result (createEmptyDB reopens "notes.db")) as [h|e] eqn:Hres;
    [|vm_compute in Hres; discriminate].
  exists h. split; [reflexivity|].
  apply (createEmptyDB_success_state reopens "notes.db" reopenedStore h
           eq_refl).
  - unfold reopenedStore. simpl.
    rewrite !NoDup_cons, !elem_of_cons, !elem_of_nil.
    split_and!; try (intuition discriminate). apply NoDup_nil_2.
  - exact Hres.
Defined.

Lemma createInitializedDB_rejected_listing_witness :
  result (createInitializedDB noteParserAccepts fifoEngine "/ws"
            ([vault1] ++ vault2 :: []) rejectsVault2 ":memory:")
  = Fulfilled (Err (JsError "ENOENT")).
Proof.
  destruct (result (createEmptyDB fifoEngine ":memory:")) as [h|e] eqn:Hres;
    [|vm_compute in Hres; discriminate].
  apply (createInitializedDB_rejected_listing noteParserAccepts fifoEngine
           "/ws" rejectsVault2 ":memory:" h [vault1] [] vault2
           (JsError "ENOENT") Hres).
  - intros u _ files c vaultPath. by eexists _, _.
  - intros u ->%list_elem_of_singleton. by eexists.
  - reflexivity.
Defined.

Lemma createInitializedDB_parser_throws_witness :
  result (createInitializedDB throwsOnVault2 fifoEngine "/ws"
            ([vault1] ++ vault2 :: []) oneFilePerVault ":memory:")
  = Rejected (JsError "cannot parse").
Proof.
  destruct (result (createEmptyDB fifoEngine ":memory:")) as [h|e] eqn:Hres;
    [|vm_compute in Hres; discriminate].
  apply (createInitializedDB_parser_throws throwsOnVault2 fifoEngine
           "/ws" oneFilePerVault ":memory:" h [vault1] [] vault2
           (RespData ["*.md"]) (JsError "cannot parse") Hres).
  - intros u Hu. rewrite app_nil_r in Hu.
    apply list_elem_of_singleton in Hu as ->.
    intros files c vaultPath. by eexists _, _.
  - reflexivity.
  - intros c. by eexists.
Defined.

Lemma initSchema_entries_are_parsed_modules_witness :
  id (root (goodSchema vault1 "*.schema.yml")) = "foo"
  /\ exists v,
       v ∈ [vault1]
       /\ goodSchema vault1 "*.schema.yml"
          ∈ parsedOf noteParserAccepts "/ws" oneFilePerVault v.
Proof.
  apply (initSchema_entries_are_parsed_modules noteParserAccepts "/ws"
           oneFilePerVault [vault1] "foo").
  reflexivity.
Defined.

Lemma initSchema_failed_listing_drops_all_witness :
  heapSettled (initSchema noteParserAccepts [vault1; vault2] "/ws"
                          rejectsVault2)
  = mkHeap ∅ [].
Proof.
  apply (initSchema_failed_listing_drops_all noteParserAccepts "/ws"
           rejectsVault2 [vault1; vault2] vault2 (JsError "ENOENT")).
  - right. by left.
  - right. reflexivity.
Defined.

Lemma initSchema_collects_parse_errors_witness :
  returned (initSchema schemaParserFails [vault1; vault2] "/ws"
                       oneFilePerVault) = Ok SchemaDictRef
  /\ errorsVar (heapSettled (initSchema schemaParserFails [vault1; vault2]
                                        "/ws" oneFilePerVault))
     = [badYaml; badYaml].
Proof.
  apply (initSchema_collects_parse_errors schemaParserFails "/ws"
           oneFilePerVault [vault1; vault2]).
  intros v _. by eexists.
Defined.

Lemma readAllSchema_data_exact_witness :
  exists resp modules,
    readAllSchema noteParserAccepts [vault1; vault2] "/ws" emptyVault1
    = Fulfilled resp
    /\ data resp = Some modules
    /\ (goodSchema vault2 "foo.schema.yml" ∈ modules)
    /\ (goodSchema vault1 "foo.schema.yml" ∉ modules).
Proof.
  destruct (readAllSchema_data_exact noteParserAccepts "/ws" emptyVault1
              [vault1; vault2]) as (resp & modules & Heq & Hdata & Hiff).
  { intros v _. by eexists. }
  exists resp, modules. split_and!; [exact Heq|exact Hdata| |].
  - apply Hiff. exists vault2, ["foo.schema.yml"].
    split_and!; [right; by left|reflexivity|discriminate|by left].
  - intros (b & files & Hb & Hlist & Hne & Hm)%Hiff.
    apply elem_of_cons in Hb as [->|Hb].
    + vm_compute in Hlist. injection Hlist as <-. by apply Hne.
    + apply list_elem_of_singleton in Hb as ->.
      vm_compute in Hlist. injection Hlist as <-.
      apply list_elem_of_singleton in Hm. discriminate.
Defined.

Lemma readAllSchema_no_error_iff_witness :
  exists resp,
    readAllSchema noteParserAccepts [vault1; vault2] "/ws" oneFilePerVault
    = Fulfilled resp
    /\ error resp = None.
Proof.
  destruct (readAllSchema_no_error_iff noteParserAccepts "/ws"
              oneFilePerVault [vault1; vault2]) as (resp & Heq & Hiff).
  { intros v _. by eexists. }
  exists resp. split; [exact Heq|]. apply Hiff.
  intros v _. exists ["*.schema.yml"]. by split_and!.
Defined.

Lemma readAllSchema_listing_error_payload_witness :
  exists errs modules,
    readAllSchema noteParserAccepts [vault1; vault2] "/ws" unreadable
    = Fulfilled (mkResp (Some modules) (Some (DendronCompositeError errs)))
    /\ DendronCompositeError
         [DendronError "Unable to get schemas for vault second"
                       (Some NO_SCHEMA_FOUND) (Some MINOR)
                       (Some (JsError "EACCES"))] ∈ errs.
Proof.
  apply (readAllSchema_listing_error_payload noteParserAccepts "/ws"
           unreadable [vault1; vault2] vault2 (JsError "EACCES")).
  - intros v _. by eexists.
  - right. by left.
  - reflexivity.
Defined.

Lemma readAllSchema_parser_errors_reported_witness :
  exists errs modules,
    readAllSchema schemaParserFails [vault1] "/ws" oneFilePerVault
    = Fulfilled (mkResp (Some modules) (Some (DendronCompositeError errs)))
    /\ DendronCompositeError [badYaml] ∈ errs.
Proof.
  destruct (readAllSchema_parser_errors_reported schemaParserFails "/ws"
              oneFilePerVault [vault1] vault1 ["*.schema.yml"] [badYaml])
    as (errs & modules & Heq & Hin & _).
  - intros v _. by eexists.
  - by left.
  - reflexivity.
  - discriminate.
  - reflexivity.
  - by exists errs, modules.
Defined.

Lemma readAllSchema_rejects_witness :
  readAllSchema noteParserAccepts ([vault1] ++ vault2 :: []) "/ws"
                rejectsVault2
  = Rejected (JsError "ENOENT").
Proof.
  apply (readAllSchema_rejects noteParserAccepts "/ws" rejectsVault2
           [vault1] [] vault2 (JsError "ENOENT")).
  - intros v Hv. rewrite app_nil_r in Hv.
    apply list_elem_of_singleton in Hv as ->. by eexists.
  - reflexivity.
Defined.
End Witnesses.
